(** * Cloud price calculator: the client's request and derivation logic

    A shallow embedding of [client/src/App.jsx]: the React state of the
    [App] component, the two asynchronous handlers ([fetchInstanceTypes] and
    [handleSubmit]), the derivation functions that feed the charts
    ([formatChartData], [formatPieData]) and the parts of the rendered view
    that depend on the state (submit button, error panel, result cards).

    Asynchronous functions are embedded as trees of effects with explicit
    suspension points at every [await]; [try]/[catch]/[finally] are
    combinators on these trees.  A JSON number decodes to a finite double,
    which is a rational; the client only carries and compares such numbers,
    so they are modelled in [Q]. *)

From Stdlib Require Import QArith Ascii String.
From stdpp Require Import gmap strings list fin_maps.

Local Open Scope string_scope.
Local Open Scope Z_scope.

(** ** JavaScript values used by the component *)

(** An [Error] object; the handlers only ever read [message]. *)
Record JsError := Error { message : string }.

(** The outcome of a promise. *)
Inductive Settled (A : Type) : Type :=
| Fulfilled (a : A)
| Rejected (e : JsError).
Arguments Fulfilled {A} a.
Arguments Rejected {A} e.

(** [String.prototype.toUpperCase] on the ASCII range (provider identifiers
    and family names are ASCII). *)
Definition upper_ascii (c : ascii) : ascii :=
  let n := nat_of_ascii c in
  if ((97 <=? n)%nat && (n <=? 122)%nat)%bool then ascii_of_nat (n - 32) else c.

Fixpoint toUpperCase (s : string) : string :=
  match s with
  | EmptyString => EmptyString
  | String c rest => String (upper_ascii c) (toUpperCase rest)
  end.

(** A plain object with string keys is kept as the list of its entries in
    enumeration order; for keys that are not array indices (every identifier
    here) this is the insertion order, and keys are pairwise distinct. *)
Definition JsObject (V : Type) : Type := list (string * V).

Definition Object_entries {V} (o : JsObject V) : list (string * V) := o.
Definition Object_keys {V} (o : JsObject V) : list string := map fst o.

(** [o[k]]: [None] stands for [undefined]. *)
Fixpoint Object_get {V} (o : JsObject V) (k : string) : option V :=
  match o with
  | [] => None
  | (k', v) :: rest => if String.eqb k' k then Some v else Object_get rest k
  end.

(** [{...o, [k]: v}]: an existing key keeps its place, a new one goes last.
    (A new integer-like key would be enumerated before the other keys; the
    statements about the position of a new key exclude such names.) *)
Fixpoint Object_set {V} (o : JsObject V) (k : string) (v : V) : JsObject V :=
  match o with
  | [] => [(k, v)]
  | (k', v') :: rest =>
      if String.eqb k' k then (k', v) :: rest else (k', v') :: Object_set rest k v
  end.

(** [Array.prototype.indexOf]: first position of a strictly equal element,
    [-1] when there is none. *)
Fixpoint indexOf (l : list string) (x : string) : Z :=
  match l with
  | [] => -1
  | y :: rest =>
      if String.eqb y x then 0
      else let i := indexOf rest x in if i <? 0 then -1 else i + 1
  end.

(** [a[i]] for an array [a]; out of range gives [undefined]. *)
Definition array_get {A} (a : list A) (i : Z) : option A :=
  if i <? 0 then None else a !! Z.to_nat i.

(** [Array.prototype.map] with the two-argument callback [(x, index)]. *)
Fixpoint map_index_from {A B} (f : A -> nat -> B) (i : nat) (l : list A) : list B :=
  match l with
  | [] => []
  | x :: rest => f x i :: map_index_from f (S i) rest
  end.
Definition map_index {A B} (f : A -> nat -> B) (l : list A) : list B :=
  map_index_from f 0 l.

(** ** Data model *)

(** Body of [GET /instances/{provider}]. *)
Record ProviderCatalog := { instance_families : JsObject (list string) }.

(** One entry of [results] in the body of [GET /compare]. *)
Record ProviderCost := {
  instance_type : string;
  region : string;
  hours_running : Q;
  storage_gb : Q;
  compute_cost : Q;
  storage_cost : Q;
  total_cost : Q
}.

Record ComparisonSummary := {
  cheapest_provider : string;
  cost_breakdown : JsObject Q;
  max_savings : Q;
  percentage_savings : Q
}.

Record ComparisonResult := {
  results : JsObject ProviderCost;
  comparison : ComparisonSummary
}.

(** The form state is a plain object; [hours] and [storage_gb] are kept as
    the text that ends up in the query string. *)
Definition FormData : Type := JsObject string.

(** The five [useState] cells of [App]. *)
Record AppState := {
  formData : FormData;
  comparisonData : option ComparisonResult;
  loading : bool;
  error : option string;
  instanceTypes : gmap string ProviderCatalog
}.

Definition initialState : AppState := {|
  formData :=
    [("aws_instance", "t3.medium");
     ("gcp_instance", "e2-standard-2");
     ("azure_instance", "Standard_D2s_v3");
     ("hours", "24");
     ("storage_gb", "50");
     ("aws_region", "us-east-1");
     ("gcp_region", "us-central1");
     ("azure_region", "eastus")];
  comparisonData := None;
  loading := false;
  error := None;
  instanceTypes := ∅
|}.

Definition COLORS : list string := ["#3B82F6"; "#10B981"; "#F59E0B"; "#EF4444"].

(** ** Effects of the handlers *)

(** What a handler can do to the outside: call one of the state setters,
    call [e.preventDefault()], or write to the console. *)
Inductive Effect :=
| preventDefault
| setFormData (upd : FormData -> FormData)
| setComparisonData (d : option ComparisonResult)
| setLoading (b : bool)
| setError (e : option string)
| setInstanceTypes (t : gmap string ProviderCatalog)
| console_error (label : string) (err : JsError).

Definition apply_effect (eff : Effect) (s : AppState) : AppState :=
  match eff with
  | preventDefault => s
  | setFormData upd =>
      {| formData := upd (formData s); comparisonData := comparisonData s; loading := loading s;
         error := error s; instanceTypes := instanceTypes s |}
  | setComparisonData d =>
      {| formData := formData s; comparisonData := d; loading := loading s;
         error := error s; instanceTypes := instanceTypes s |}
  | setLoading b =>
      {| formData := formData s; comparisonData := comparisonData s; loading := b;
         error := error s; instanceTypes := instanceTypes s |}
  | setError e =>
      {| formData := formData s; comparisonData := comparisonData s; loading := loading s;
         error := e; instanceTypes := instanceTypes s |}
  | setInstanceTypes t =>
      {| formData := formData s; comparisonData := comparisonData s; loading := loading s;
         error := error s; instanceTypes := t |}
  | console_error _ _ => s
  end.

(** The two endpoints of the pricing service at [http://localhost:8000]. *)
Inductive Url :=
| instances_url (provider : string)
| compare_url (queryParams : list (string * string)).

(** ** Asynchronous functions *)

Section Async.
(** [J] is the type a response body of the endpoint decodes to. *)
Context {J : Type}.

Record Response := { ok : bool; status : Z; json : Settled J }.

(** An [async] function body: it returns, throws, performs an effect and
    goes on, or is suspended at an [await] until the promise settles. *)
Inductive Async (A : Type) : Type :=
| Ret (a : A)
| Throw (e : JsError)
| Do (eff : Effect) (k : Async A)
| AwaitFetch (u : Url) (k : Settled Response -> Async A)
| AwaitJson (r : Response) (k : Settled J -> Async A).
Global Arguments Ret {A} a.
Global Arguments Throw {A} e.
Global Arguments Do {A} eff k.
Global Arguments AwaitFetch {A} u k.
Global Arguments AwaitJson {A} r k.

Fixpoint bind {A B} (m : Async A) (f : A -> Async B) : Async B :=
  match m with
  | Ret a => f a
  | Throw e => Throw e
  | Do eff k => Do eff (bind k f)
  | AwaitFetch u k => AwaitFetch u (fun o => bind (k o) f)
  | AwaitJson r k => AwaitJson r (fun o => bind (k o) f)
  end.

(** [try { m } catch (err) { h err }] *)
Fixpoint try_catch {A} (m : Async A) (h : JsError -> Async A) : Async A :=
  match m with
  | Ret a => Ret a
  | Throw e => h e
  | Do eff k => Do eff (try_catch k h)
  | AwaitFetch u k => AwaitFetch u (fun o => try_catch (k o) h)
  | AwaitJson r k => AwaitJson r (fun o => try_catch (k o) h)
  end.

(** [try { m } finally { fin }]: [fin] runs on both exits, and the
    completion of [m] is kept unless [fin] itself throws. *)
Fixpoint finally {A} (m : Async A) (fin : Async unit) : Async A :=
  match m with
  | Ret a => bind fin (fun _ => Ret a)
  | Throw e => bind fin (fun _ => Throw e)
  | Do eff k => Do eff (finally k fin)
  | AwaitFetch u k => AwaitFetch u (fun o => finally (k o) fin)
  | AwaitJson r k => AwaitJson r (fun o => finally (k o) fin)
  end.

Definition try_catch_finally {A} (m : Async A) (h : JsError -> Async A)
    (fin : Async unit) : Async A :=
  finally (try_catch m h) fin.

Definition perform (eff : Effect) : Async unit := Do eff (Ret tt).

(** [await p] rethrows the rejection reason of [p]. *)
Definition resume {A} (o : Settled A) : Async A :=
  match o with
  | Fulfilled a => Ret a
  | Rejected e => Throw e
  end.

(** [await fetch(u)] *)
Definition fetch (u : Url) : Async Response := AwaitFetch u resume.

(** [await response.json()] *)
Definition response_json (r : Response) : Async J := AwaitJson r resume.

(** [for (const x of xs) { acc = body x acc }], the loop's local variables
    being threaded through as [acc]. *)
Fixpoint for_of {A S} (xs : list A) (body : A -> S -> Async S) (acc : S) : Async S :=
  match xs with
  | [] => Ret acc
  | x :: rest => bind (body x acc) (for_of rest body)
  end.
End Async.
Global Arguments Response : clear implicits.
Global Arguments Async : clear implicits.

#[global] Instance Async_ret {J} : MRet (Async J) := fun A a => Ret a.
#[global] Instance Async_bind {J} : MBind (Async J) := fun A B f m => bind m f.

(** ** The handlers of [App] *)

Definition providers : list string := ["aws"; "gcp"; "azure"].

(** Lines 34-37: the body of the loop; [types] is the loop's local object. *)
Definition retrieve_into (provider : string) (types : gmap string ProviderCatalog)
    : Async ProviderCatalog (gmap string ProviderCatalog) :=
  response ← fetch (instances_url provider);
  if ok response
  then (body ← response_json response; mret (<[provider := body]> types))
  else mret types.

(** Lines 28-43.  The loop awaits each provider's response before the next
    request is made. *)
Definition fetchInstanceTypes : Async ProviderCatalog unit :=
  try_catch
    (types ← for_of providers retrieve_into ∅;
     perform (setInstanceTypes types))
    (fun err => perform (console_error "Failed to fetch instance types:" err)).

(** Lines 45-51. *)
Definition handleInputChange {J} (name value : string) : Async J unit :=
  perform (setFormData (fun prev => Object_set prev name value)).

(** A property read that is put into a template or query string. *)
Definition field (o : FormData) (k : string) : string :=
  default "undefined" (Object_get o k).

(** Lines 59-68, before percent-encoding. *)
Definition URLSearchParams (formData : FormData) : list (string * string) :=
  [("instance_aws", field formData "aws_instance");
   ("instance_gcp", field formData "gcp_instance");
   ("instance_azure", field formData "azure_instance");
   ("hours", field formData "hours");
   ("storage_gb", field formData "storage_gb");
   ("aws_region", field formData "aws_region");
   ("gcp_region", field formData "gcp_region");
   ("azure_region", field formData "azure_region")].

(** Lines 53-83.  [formData] is the value the closure captured at the render
    the handler belongs to.  A body that decodes to [null] is [None]. *)
Definition handleSubmit (formData : FormData) : Async (option ComparisonResult) unit :=
  perform preventDefault;;
  perform (setLoading true);;
  perform (setError None);;
  try_catch_finally
    (let queryParams := URLSearchParams formData in
     response ← fetch (compare_url queryParams);
     (if negb (ok response)
      then Throw (Error "Failed to fetch comparison data")
      else mret tt);;
     data ← response_json response;
     perform (setComparisonData data))
    (fun err => perform (setError (Some (message err))))
    (perform (setLoading false)).

(** ** Derivation of the chart data *)

Record ChartRecord := {
  provider : string;
  compute : Q;
  storage : Q;
  total : Q;
  instance : string
}.

Record PieRecord := {
  name : string;
  value : Q;
  color : option string
}.

(** Lines 85-95. *)
Definition formatChartData (s : AppState) : list ChartRecord :=
  match comparisonData s with
  | None => []
  | Some cd =>
      map (fun '(provider, data) =>
             {| provider := toUpperCase provider;
                compute := compute_cost data;
                storage := storage_cost data;
                total := total_cost data;
                instance := instance_type data |})
          (Object_entries (results cd))
  end.

(** Lines 97-105. *)
Definition formatPieData (s : AppState) : list PieRecord :=
  match comparisonData s with
  | None => []
  | Some cd =>
      map (fun '(provider, data) =>
             {| name := toUpperCase provider;
                value := total_cost data;
                color := array_get COLORS (indexOf (Object_keys (results cd)) provider) |})
          (Object_entries (results cd))
  end.

(** ** The rendered view *)

(** [s.replace('_', ' ')]: only the first underscore is replaced. *)
Fixpoint replace_underscore (s : string) : string :=
  match s with
  | EmptyString => EmptyString
  | String c rest =>
      if Ascii.eqb c "_"%char then String " "%char rest
      else String c (replace_underscore rest)
  end.

(** Lines 107-118: the option groups of a provider's selector; [None] is
    the [null] returned when the provider has no catalog.  The lookup is
    that of the catalog's own keys; the component calls the function for
    the three provider names only (lines 163, 180 and 197). *)
Definition renderInstanceOptions (s : AppState) (provider : string)
    : option (list (string * list string)) :=
  match instanceTypes s !! provider with
  | None => None
  | Some providerData =>
      Some (map (fun '(family, instances) =>
                   (toUpperCase (replace_underscore family), instances))
                (Object_entries (instance_families providerData)))
  end.

(** One card of the detailed breakdown, lines 460-525. *)
Record Card := {
  card_key : string;
  card_title : string;
  card_data : ProviderCost;
  isWinner : bool
}.

(** The results section, lines 343-529. *)
Record ResultsView := {
  cheapest_label : string;
  cheapest_cost : option Q;
  savings : Q * Q;
  barChart : list ChartRecord;
  pieChart : list PieRecord;
  pieCells : list (option string);
  cards : list Card
}.

Record View := {
  submit_disabled : bool;
  submit_caption : string;
  error_panel : option string;
  results_section : option ResultsView
}.

Definition render_results (s : AppState) (cd : ComparisonResult) : ResultsView := {|
  cheapest_label := toUpperCase (cheapest_provider (comparison cd));
  cheapest_cost :=
    Object_get (cost_breakdown (comparison cd)) (cheapest_provider (comparison cd));
  savings := (max_savings (comparison cd), percentage_savings (comparison cd));
  barChart := formatChartData s;
  pieChart := formatPieData s;
  pieCells :=
    map_index (fun _ index => COLORS !! (index mod length COLORS)%nat)
              (formatPieData s);
  cards :=
    map_index (fun '(provider, data) _ =>
                 {| card_key := provider;
                    card_title := toUpperCase provider;
                    card_data := data;
                    isWinner := String.eqb provider (cheapest_provider (comparison cd)) |})
              (Object_entries (results cd))
|}.

(** [{error && ...}] shows the panel for a non-empty message only;
    [{comparisonData && ...}] shows the results whenever a payload is stored. *)
Definition render (s : AppState) : View := {|
  submit_disabled := loading s;
  submit_caption := if loading s then "Calculating Prices..." else "Compare Prices";
  error_panel :=
    match error s with
    | Some msg => if String.eqb msg EmptyString then None else Some msg
    | None => None
    end;
  results_section := render_results s <$> comparisonData s
|}.

(** ** Running a handler *)

Section Semantics.
Context {J A : Type}.

(** A handler invocation parked at an [await]. *)
Inductive Suspended : Type :=
| AtFetch (u : Url) (k : Settled (Response J) -> Async J A)
| AtJson (r : Response J) (k : Settled J -> Async J A).

Inductive Status : Type :=
| Finished (o : Settled A)
| Waiting (t : Suspended).

(** Run the synchronous part of [m]: up to the next [await] or the end. *)
Fixpoint advance (m : Async J A) (s : AppState) : AppState * Status :=
  match m with
  | Ret a => (s, Finished (Fulfilled a))
  | Throw e => (s, Finished (Rejected e))
  | Do eff k => advance k (apply_effect eff s)
  | AwaitFetch u k => (s, Waiting (AtFetch u k))
  | AwaitJson r k => (s, Waiting (AtJson r k))
  end.

(** What a parked invocation goes on with: the network decides how a
    fetch settles, the response how its body decodes. *)
Definition settle (t : Suspended) (o : Settled (Response J)) : Async J A :=
  match t with
  | AtFetch _ k => k o
  | AtJson r k => k (json r)
  end.

Definition pending (st : Status) : list Suspended :=
  match st with
  | Finished _ => []
  | Waiting t => [t]
  end.

(** What can be observed of a whole run. *)
Inductive Event : Type :=
| Performed (eff : Effect)
| Issued (u : Url)
| Arrived (u : Url) (o : Settled (Response J))
| Decoded (o : Settled J).

Record Outcome := {
  final : AppState;
  trace : list Event;
  completion : Settled A
}.

(** Run [m] to its end against a network that settles every request. *)
Fixpoint run (net : Url -> Settled (Response J)) (m : Async J A) (s : AppState)
    : Outcome :=
  match m with
  | Ret a => {| final := s; trace := []; completion := Fulfilled a |}
  | Throw e => {| final := s; trace := []; completion := Rejected e |}
  | Do eff k =>
      let r := run net k (apply_effect eff s) in
      {| final := final r; trace := Performed eff :: trace r;
         completion := completion r |}
  | AwaitFetch u k =>
      let r := run net (k (net u)) s in
      {| final := final r; trace := Issued u :: Arrived u (net u) :: trace r;
         completion := completion r |}
  | AwaitJson resp k =>
      let r := run net (k (json resp)) s in
      {| final := final r; trace := Decoded (json resp) :: trace r;
         completion := completion r |}
  end.

(** The handler never changes [loading]. *)
Inductive keeps_loading : Async J A -> Prop :=
| kl_ret a : keeps_loading (Ret a)
| kl_throw e : keeps_loading (Throw e)
| kl_do eff k :
    (forall b, eff <> setLoading b) -> keeps_loading k -> keeps_loading (Do eff k)
| kl_fetch u k : (forall o, keeps_loading (k o)) -> keeps_loading (AwaitFetch u k)
| kl_json r k : (forall o, keeps_loading (k o)) -> keeps_loading (AwaitJson r k).

(** On every path the handler's last effect on [loading] is
    [setLoading(false)], after which it ends without another [await], and
    it does not touch [loading] before. *)
Inductive settles_idle : Async J A -> Prop :=
| si_reset_ret a : settles_idle (Do (setLoading false) (Ret a))
| si_reset_throw e : settles_idle (Do (setLoading false) (Throw e))
| si_do eff k :
    (forall b, eff <> setLoading b) -> settles_idle k -> settles_idle (Do eff k)
| si_fetch u k : (forall o, settles_idle (k o)) -> settles_idle (AwaitFetch u k)
| si_json r k : (forall o, settles_idle (k o)) -> settles_idle (AwaitJson r k).
End Semantics.
Global Arguments Suspended : clear implicits.
Global Arguments Status : clear implicits.
Global Arguments Event : clear implicits.
Global Arguments Outcome : clear implicits.

(** ** The component as a transition system *)

(** The committed state together with the handler invocations that are
    parked at an [await]. *)
Record System := {
  app : AppState;
  submits : list (Suspended (option ComparisonResult) unit);
  loads : list (Suspended ProviderCatalog unit)
}.

(** Mounting runs the effect of lines 24-26 once. *)
Definition mount : System :=
  let '(s, st) := advance fetchInstanceTypes initialState in
  {| app := s; submits := []; loads := pending st |}.

(** What happens to the system at each kind of event. *)
Definition on_input (name value : string) (sys : System) : System :=
  let '(s, _) := advance (J := unit) (handleInputChange name value) (app sys) in
  {| app := s; submits := submits sys; loads := loads sys |}.

Definition on_submit (sys : System) : System :=
  let '(s, st) := advance (handleSubmit (formData (app sys))) (app sys) in
  {| app := s; submits := (submits sys ++ pending st)%list; loads := loads sys |}.

Definition on_compare_settles
    (before : list (Suspended (option ComparisonResult) unit))
    (t : Suspended (option ComparisonResult) unit)
    (after : list (Suspended (option ComparisonResult) unit))
    (o : Settled (Response (option ComparisonResult))) (sys : System) : System :=
  let '(s, st) := advance (settle t o) (app sys) in
  {| app := s; submits := (before ++ pending st ++ after)%list; loads := loads sys |}.

Definition on_catalog_settles
    (before : list (Suspended ProviderCatalog unit))
    (t : Suspended ProviderCatalog unit)
    (after : list (Suspended ProviderCatalog unit))
    (o : Settled (Response ProviderCatalog)) (sys : System) : System :=
  let '(s, st) := advance (settle t o) (app sys) in
  {| app := s; submits := submits sys; loads := (before ++ pending st ++ after)%list |}.

Inductive Label :=
| UserInput (name value : string)
| UserSubmit
| CompareSettles (o : Settled (Response (option ComparisonResult)))
| CatalogSettles (o : Settled (Response ProviderCatalog)).

(** The user can always edit the form; a submit needs the button of line
    300-303 enabled; any parked invocation can be resumed by the network. *)
Inductive step : System -> Label -> System -> Prop :=
| step_input sys name value :
    step sys (UserInput name value) (on_input name value sys)
| step_submit sys :
    submit_disabled (render (app sys)) = false ->
    step sys UserSubmit (on_submit sys)
| step_compare_settles sys before t after o :
    submits sys = (before ++ t :: after)%list ->
    step sys (CompareSettles o) (on_compare_settles before t after o sys)
| step_catalog_settles sys before t after o :
    loads sys = (before ++ t :: after)%list ->
    step sys (CatalogSettles o) (on_catalog_settles before t after o sys).

Inductive reachable : System -> Prop :=
| reach_mount : reachable mount
| reach_step sys l sys' : reachable sys -> step sys l sys' -> reachable sys'.

(** What holds of every reachable system: a submit handler is parked
    exactly when [loading] is set, there is never more than one, it will
    reset [loading] when it ends, and the catalog loader never touches
    [loading]. *)
Definition system_invariant (sys : System) : Prop :=
  length (submits sys) = (if loading (app sys) then 1 else 0)%nat /\
  (forall t, t ∈ submits sys -> forall o, settles_idle (settle t o)) /\
  (forall t, t ∈ loads sys -> forall o, keeps_loading (settle t o)).

(** The comparison fetches that are in flight. *)
Definition is_fetch {J A} (t : Suspended J A) : bool :=
  match t with
  | AtFetch _ _ => true
  | AtJson _ _ => false
  end.

Definition fetches_in_flight (sys : System) : nat :=
  length (filter (fun t => is_fetch t = true) (submits sys)).

(** A request is pending from the submit until its handler has finished. *)
Definition Pending (sys : System) : Prop := submits sys <> [].

(** ** The catalog loader seen from outside *)

(** What one provider's retrieval yields taken on its own: the decoded
    catalog, or nothing when the request or the decoding fails or the
    status is not a success. *)
Definition retrieved (net : Url -> Settled (Response ProviderCatalog))
    (provider : string) : option ProviderCatalog :=
  match net (instances_url provider) with
  | Fulfilled r =>
      if ok r then match json r with Fulfilled c => Some c | Rejected _ => None end
      else None
  | Rejected _ => None
  end.

(** The retrieval ends in an exception: the request is rejected, or the body
    of a success response does not decode. *)
Definition raises (net : Url -> Settled (Response ProviderCatalog))
    (provider : string) : bool :=
  match net (instances_url provider) with
  | Fulfilled r =>
      if ok r then match json r with Fulfilled _ => false | Rejected _ => true end
      else false
  | Rejected _ => true
  end.

(** The object the loop has built after going through [ps] without an
    exception, starting from [types]. *)
Definition collected (net : Url -> Settled (Response ProviderCatalog))
    (ps : list string) (types : gmap string ProviderCatalog)
    : gmap string ProviderCatalog :=
  foldl (fun acc p =>
           match retrieved net p with
           | Some c => <[p := c]> acc
           | None => acc
           end) types ps.

(** The part of a trace that concerns the order of retrievals and the
    publication of the catalog. *)
Inductive Mark :=
| MIssued (provider : string)
| MArrived (provider : string)
| MPublished.

#[global] Instance Mark_eq_dec : EqDecision Mark.
Proof. solve_decision. Defined.

Definition mark {J} (ev : Event J) : option Mark :=
  match ev with
  | Issued (instances_url p) => Some (MIssued p)
  | Arrived (instances_url p) _ => Some (MArrived p)
  | Performed (setInstanceTypes _) => Some MPublished
  | _ => None
  end.

Definition protocol {J} (tr : list (Event J)) : list Mark := omap mark tr.

(** The marks one retrieval leaves. *)
Definition retrieval_marks (provider : string) : list Mark :=
  [MIssued provider; MArrived provider].

(** Each request follows the arrival of the previous response, and the
    catalog is published after the last one. *)
Definition sequential_schedule : list Mark :=
  (flat_map retrieval_marks providers ++ [MPublished])%list.

(** No retrieval of [ps] ends in an exception. *)
Definition settles_cleanly (net : Url -> Settled (Response ProviderCatalog))
    (ps : list string) : bool :=
  forallb (fun p => negb (raises net p)) ps.

(** No request is issued after a response has arrived. *)
Definition issued_concurrently (tr : list Mark) : Prop :=
  forall i j p q,
    tr !! i = Some (MArrived p) -> tr !! j = Some (MIssued q) -> (j < i)%nat.

(** ** How a comparison fetch can settle *)

Inductive FetchCase :=
| WellFormed (cd : ComparisonResult)
| NullBody
| NonSuccess (status : Z)
| Exception (e : JsError).

Definition fetch_case (o : Settled (Response (option ComparisonResult))) : FetchCase :=
  match o with
  | Rejected e => Exception e
  | Fulfilled r =>
      if ok r then
        match json r with
        | Fulfilled (Some cd) => WellFormed cd
        | Fulfilled None => NullBody
        | Rejected e => Exception e
        end
      else NonSuccess (status r)
  end.

(** ** The summary computed by the pricing service *)

(** Modelled from the spec: the service behind [GET /compare], which fills in
    [comparison.cheapest_provider], is not part of the client source.  The
    spec defines it as the provider that minimizes [total_cost] over the
    result map, ties going to the first key in iteration order. *)
Fixpoint service_cheapest (entries : list (string * ProviderCost))
    : option (string * Q) :=
  match entries with
  | [] => None
  | (p, d) :: rest =>
      match service_cheapest rest with
      | Some (q, c) =>
          if Qle_bool (total_cost d) c then Some (p, total_cost d) else Some (q, c)
      | None => Some (p, total_cost d)
      end
  end.

(** A payload as the service sends it: distinct provider keys, and the
    summary names the provider [service_cheapest] selects. *)
Definition well_formed (cd : ComparisonResult) : Prop :=
  NoDup (Object_keys (results cd)) /\
  fst <$> service_cheapest (results cd) = Some (cheapest_provider (comparison cd)).

(** ** Sample data *)

Definition sample_cost (inst reg : string) (c st : Q) : ProviderCost := {|
  instance_type := inst; region := reg; hours_running := 24; storage_gb := 50;
  compute_cost := c; storage_cost := st; total_cost := Qred (c + st)
|}.

Definition sample_results : JsObject ProviderCost :=
  [("aws", sample_cost "t3.medium" "us-east-1" (37 # 1) (5 # 1));
   ("gcp", sample_cost "e2-standard-2" "us-central1" (63 # 2) (4 # 1));
   ("azure", sample_cost "Standard_D2s_v3" "eastus" (177 # 4) (6 # 1))].

Definition sample_payload : ComparisonResult := {|
  results := sample_results;
  comparison := {|
    cheapest_provider := "gcp";
    cost_breakdown := [("aws", 42 # 1); ("gcp", 71 # 2); ("azure", 201 # 4)];
    max_savings := 59 # 4;
    percentage_savings := 2935 # 100
  |}
|}.

(** A tie between the first two providers. *)
Definition tied_payload : ComparisonResult := {|
  results :=
    [("aws", sample_cost "t3.medium" "us-east-1" (30 # 1) (5 # 1));
     ("gcp", sample_cost "e2-standard-2" "us-central1" (31 # 1) (4 # 1));
     ("azure", sample_cost "Standard_D2s_v3" "eastus" (40 # 1) (6 # 1))];
  comparison := {|
    cheapest_provider := "aws";
    cost_breakdown := [("aws", 35 # 1); ("gcp", 35 # 1); ("azure", 46 # 1)];
    max_savings := 11 # 1;
    percentage_savings := 2391 # 100
  |}
|}.

Definition with_result (cd : ComparisonResult) : AppState :=
  apply_effect (setComparisonData (Some cd)) initialState.

Definition with_error (msg : string) : AppState :=
  apply_effect (setError (Some msg)) initialState.

Definition response_503 : Response (option ComparisonResult) :=
  {| ok := false; status := 503; json := Rejected (Error "Unexpected token") |}.

Definition response_200 (cd : ComparisonResult) : Response (option ComparisonResult) :=
  {| ok := true; status := 200; json := Fulfilled (Some cd) |}.

Definition sample_catalog (p : string) : ProviderCatalog :=
  {| instance_families := [("general_purpose", [p ++ "-small"; p ++ "-large"])] |}.

Definition catalog_200 (p : string) : Settled (Response ProviderCatalog) :=
  Fulfilled {| ok := true; status := 200; json := Fulfilled (sample_catalog p) |}.

Definition catalogs_up (u : Url) : Settled (Response ProviderCatalog) :=
  match u with
  | instances_url p => catalog_200 p
  | compare_url _ => Rejected (Error "Failed to fetch")
  end.

(** [gcp] answers with status 500. *)
Definition gcp_status_500 (u : Url) : Settled (Response ProviderCatalog) :=
  match u with
  | instances_url p =>
      if String.eqb p "gcp"
      then Fulfilled {| ok := false; status := 500;
                        json := Rejected (Error "Unexpected token") |}
      else catalog_200 p
  | compare_url _ => Rejected (Error "Failed to fetch")
  end.

(** The request to [gcp] fails at the network level. *)
Definition gcp_unreachable (u : Url) : Settled (Response ProviderCatalog) :=
  match u with
  | instances_url p =>
      if String.eqb p "gcp" then Rejected (Error "Failed to fetch") else catalog_200 p
  | compare_url _ => Rejected (Error "Failed to fetch")
  end.

(** ** Footprints and shapes of handlers *)

Section Shapes.
Context {J A : Type}.

(** Every effect the handler may perform satisfies [P], and every value it
    may return satisfies [Q]. *)
Inductive performs (P : Effect -> Prop) (Q : A -> Prop) : Async J A -> Prop :=
| pf_ret a : Q a -> performs P Q (Ret a)
| pf_throw e : performs P Q (Throw e)
| pf_do eff k : P eff -> performs P Q k -> performs P Q (Do eff k)
| pf_fetch u k : (forall o, performs P Q (k o)) -> performs P Q (AwaitFetch u k)
| pf_json r k : (forall o, performs P Q (k o)) -> performs P Q (AwaitJson r k).

(** The handler runs to its end without another [await]. *)
Inductive ends_sync : Async J A -> Prop :=
| es_ret a : ends_sync (Ret a)
| es_throw e : ends_sync (Throw e)
| es_do eff k : ends_sync k -> ends_sync (Do eff k).

(** The handler performs its effects in one go at its end: once it has
    performed an effect it does not [await] again. *)
Inductive acts_at_end : Async J A -> Prop :=
| ae_sync m : ends_sync m -> acts_at_end m
| ae_fetch u k : (forall o, acts_at_end (k o)) -> acts_at_end (AwaitFetch u k)
| ae_json r k : (forall o, acts_at_end (k o)) -> acts_at_end (AwaitJson r k).

(** The handler passes at most [n] suspension points on any path. *)
Inductive awaits_at_most : nat -> Async J A -> Prop :=
| am_ret n a : awaits_at_most n (Ret a)
| am_throw n e : awaits_at_most n (Throw e)
| am_do n eff k : awaits_at_most n k -> awaits_at_most n (Do eff k)
| am_fetch n u k :
    (forall o, awaits_at_most n (k o)) -> awaits_at_most (S n) (AwaitFetch u k)
| am_json n r k :
    (forall o, awaits_at_most n (k o)) -> awaits_at_most (S n) (AwaitJson r k).
End Shapes.

(** The setters [handleSubmit] calls. *)
Definition submit_effect (eff : Effect) : Prop :=
  match eff with
  | preventDefault | setLoading _ | setError _ | setComparisonData _ => True
  | _ => False
  end.

(** What [fetchInstanceTypes] does to the outside: it publishes an object
    whose keys are among [providers], or writes to the console. *)
Definition loader_effect (eff : Effect) : Prop :=
  match eff with
  | setInstanceTypes t => forall p, is_Some (t !! p) -> p ∈ providers
  | console_error _ _ => True
  | _ => False
  end.

(** The query parameters of lines 60-67 with the form field each one is
    read from. *)
Definition query_fields : list (string * string) :=
  [("instance_aws", "aws_instance");
   ("instance_gcp", "gcp_instance");
   ("instance_azure", "azure_instance");
   ("hours", "hours");
   ("storage_gb", "storage_gb");
   ("aws_region", "aws_region");
   ("gcp_region", "gcp_region");
   ("azure_region", "azure_region")].

(** The form holds every field a query parameter is read from. *)
Definition has_fields (fd : FormData) : Prop :=
  forall t f, (t, f) ∈ query_fields -> is_Some (Object_get fd f).

(** The requests, the console lines and the decoded bodies of a trace. *)
Definition requests {J} (tr : list (Event J)) : list Url :=
  omap (fun ev => match ev with Issued u => Some u | _ => None end) tr.

Definition logged {J} (tr : list (Event J)) : list (string * JsError) :=
  omap (fun ev => match ev with
                  | Performed (console_error label err) => Some (label, err)
                  | _ => None
                  end) tr.

Definition decoded {J} (tr : list (Event J)) : list (Settled J) :=
  omap (fun ev => match ev with Decoded o => Some o | _ => None end) tr.

(** The exception of the first retrieval of [ps] that raises. *)
Fixpoint first_exception (net : Url -> Settled (Response ProviderCatalog))
    (ps : list string) : option JsError :=
  match ps with
  | [] => None
  | p :: rest =>
      match net (instances_url p) with
      | Rejected e => Some e
      | Fulfilled r =>
          if ok r then
            match json r with
            | Rejected e => Some e
            | Fulfilled _ => first_exception net rest
            end
          else first_exception net rest
      end
  end.

(** ** The full trace of the catalog loader *)

(** The events of one retrieval: the request, the arrival of its
    response, and the decoding of the body of a success response. *)
Definition retrieval_trace (net : Url -> Settled (Response ProviderCatalog))
    (provider : string) : list (Event ProviderCatalog) :=
  let u := instances_url provider in
  Issued u :: Arrived u (net u) ::
  match net u with
  | Fulfilled r => if ok r then [Decoded (json r)] else []
  | Rejected _ => []
  end.

(** The events of the loop over [ps]: one retrieval after the other, up to
    and including the first one that raises. *)
Fixpoint loop_trace (net : Url -> Settled (Response ProviderCatalog))
    (ps : list string) : list (Event ProviderCatalog) :=
  match ps with
  | [] => []
  | p :: rest =>
      (retrieval_trace net p ++ if raises net p then [] else loop_trace net rest)%list
  end.

(** The providers the loop gets to: those up to and including the first
    one whose retrieval raises. *)
Fixpoint attempted (net : Url -> Settled (Response ProviderCatalog))
    (ps : list string) : list string :=
  match ps with
  | [] => []
  | p :: rest => p :: if raises net p then [] else attempted net rest
  end.

(** How a run of the loader ends: with the publication of the collected
    catalog, or with the console line for the first exception. *)
Definition closing_event (net : Url -> Settled (Response ProviderCatalog))
    : Event ProviderCatalog :=
  match first_exception net providers with
  | Some e => Performed (console_error "Failed to fetch instance types:" e)
  | None => Performed (setInstanceTypes (collected net providers ∅))
  end.

(** The event after which the loop goes on to the next provider: the
    successful decoding of a body, or the arrival of a response without
    success status (whose body is not read). *)
Definition settled_before_request (ev : Event ProviderCatalog) : Prop :=
  match ev with
  | Decoded (Fulfilled _) => True
  | Arrived _ (Fulfilled r) => ok r = false
  | _ => False
  end.

(** A name made of decimal digits only; every integer-like property name,
    which an object enumerates before its other keys, is of this form. *)
Definition is_digit (c : ascii) : bool :=
  let n := nat_of_ascii c in ((48 <=? n)%nat && (n <=? 57)%nat)%bool.

Fixpoint digits_only (s : string) : bool :=
  match s with
  | EmptyString => false
  | String c EmptyString => is_digit c
  | String c rest => (is_digit c && digits_only rest)%bool
  end.


(** What the committed state satisfies at every moment. *)
Definition state_ok (s : AppState) : Prop :=
  has_fields (formData s) /\
  (forall p, is_Some (instanceTypes s !! p) -> p ∈ providers) /\
  (loading s = true -> error s = None).

(** What holds of the parked handlers and of the state in every reachable
    system. *)
Definition system_shape (sys : System) : Prop :=
  (forall t, t ∈ submits sys -> forall o,
     performs submit_effect (fun _ => True) (settle t o) /\
     acts_at_end (settle t o) /\
     awaits_at_most 1 (settle t o)) /\
  (forall t, t ∈ loads sys -> forall o,
     performs loader_effect (fun _ => True) (settle t o)) /\
  state_ok (app sys).

(** The cards marked as winner. *)
Definition winners (rv : ResultsView) : list Card :=
  filter (fun c => isWinner c = true) (cards rv).

(** A state whose result map has more entries than the palette has colors. *)
Definition five_providers : ComparisonResult := {|
  results :=
    [("aws", sample_cost "t3.medium" "us-east-1" (30 # 1) (5 # 1));
     ("gcp", sample_cost "e2-standard-2" "us-central1" (31 # 1) (4 # 1));
     ("azure", sample_cost "Standard_D2s_v3" "eastus" (40 # 1) (6 # 1));
     ("oci", sample_cost "VM.Standard2.1" "us-ashburn-1" (33 # 1) (6 # 1));
     ("ibm", sample_cost "bx2-2x8" "us-south" (36 # 1) (6 # 1))];
  comparison := {|
    cheapest_provider := "aws";
    cost_breakdown := [];
    max_savings := 11 # 1;
    percentage_savings := 2391 # 100
  |}
|}.

(** * Properties *)

(** ** The semantics of the combinators *)

Ltac unfold_monad := unfold mbind, mret, Async_bind, Async_ret in *.

Section RunLemmas.
Context {J : Type}.
Variable net : Url -> Settled (Response J).

Lemma run_bind {A B} (m : Async J A) (f : A -> Async J B) s :
  run net (bind m f) s =
  match completion (run net m s) with
  | Fulfilled a =>
      let r := run net (f a) (final (run net m s)) in
      {| final := final r;
         trace := (trace (run net m s) ++ trace r)%list;
         completion := completion r |}
  | Rejected e =>
      {| final := final (run net m s);
         trace := trace (run net m s);
         completion := Rejected e |}
  end.
Proof.
  revert s. induction m as [a|e|eff k IH|u k IH|r k IH]; intros s; cbn.
  - destruct (run net (f a) s); reflexivity.
  - reflexivity.
  - rewrite IH. destruct (run net k (apply_effect eff s)) as [fs tr [a|e]]; reflexivity.
  - rewrite IH. destruct (run net (k (net u)) s) as [fs tr [a|e]]; reflexivity.
  - rewrite IH. destruct (run net (k (json r)) s) as [fs tr [a|e]]; reflexivity.
Qed.

Lemma run_try_catch {A} (m : Async J A) (h : JsError -> Async J A) s :
  run net (try_catch m h) s =
  match completion (run net m s) with
  | Fulfilled a => run net m s
  | Rejected e =>
      let r := run net (h e) (final (run net m s)) in
      {| final := final r;
         trace := (trace (run net m s) ++ trace r)%list;
         completion := completion r |}
  end.
Proof.
  revert s. induction m as [a|e|eff k IH|u k IH|r k IH]; intros s; cbn.
  - reflexivity.
  - destruct (run net (h e) s); reflexivity.
  - rewrite IH. destruct (run net k (apply_effect eff s)) as [fs tr [a|e]]; reflexivity.
  - rewrite IH. destruct (run net (k (net u)) s) as [fs tr [a|e]]; reflexivity.
  - rewrite IH. destruct (run net (k (json r)) s) as [fs tr [a|e]]; reflexivity.
Qed.

(** A [finally] block that only performs effects runs after the body on
    both exits and keeps the body's completion. *)
Lemma run_finally_perform {A} (m : Async J A) (eff : Effect) s :
  run net (finally m (perform eff)) s =
  {| final := apply_effect eff (final (run net m s));
     trace := (trace (run net m s) ++ [Performed eff])%list;
     completion := completion (run net m s) |}.
Proof.
  revert s. induction m as [a|e|eff' k IH|u k IH|r k IH]; intros s; cbn;
    try reflexivity; rewrite IH; reflexivity.
Qed.
End RunLemmas.

(** ** Handlers and the [loading] flag *)

Section LoadingLemmas.
Context {J : Type}.

Lemma keeps_loading_bind {A B} (m : Async J A) (f : A -> Async J B) :
  keeps_loading m -> (forall a, keeps_loading (f a)) -> keeps_loading (bind m f).
Proof.
  intros Hm Hf. induction Hm; cbn; try constructor; auto.
Qed.

Lemma keeps_loading_try_catch {A} (m : Async J A) (h : JsError -> Async J A) :
  keeps_loading m -> (forall e, keeps_loading (h e)) -> keeps_loading (try_catch m h).
Proof.
  intros Hm Hh. induction Hm; cbn; try constructor; auto.
Qed.

Lemma keeps_loading_for_of {A S} (xs : list A) (body : A -> S -> Async J S) acc :
  (forall x a, keeps_loading (body x a)) -> keeps_loading (for_of xs body acc).
Proof.
  intros Hb. revert acc. induction xs as [|x xs IH]; intros acc; cbn.
  - constructor.
  - apply keeps_loading_bind; auto.
Qed.

Lemma keeps_loading_resume {A} (o : Settled A) : keeps_loading (J := J) (resume o).
Proof. destruct o; constructor. Qed.

(** Advancing such a handler leaves [loading] alone, and what it parks
    is again such a handler. *)
Lemma advance_keeps_loading {A} (m : Async J A) s s' st :
  keeps_loading m -> advance m s = (s', st) ->
  loading s' = loading s /\
  forall t, t ∈ pending st -> forall o, keeps_loading (settle t o).
Proof.
  intros Hm. revert s. induction Hm as [a|e|eff k Hne Hk IH|u k Hk IH|r k Hk IH];
    intros s Hadv; cbn in Hadv.
  - inversion Hadv; subst. split; [reflexivity|]. cbn. intros t Ht. inversion Ht.
  - inversion Hadv; subst. split; [reflexivity|]. cbn. intros t Ht. inversion Ht.
  - destruct (IH _ Hadv) as [Hl Ht]. split; [|exact Ht].
    rewrite Hl. destruct eff; try reflexivity. exfalso. eapply Hne. reflexivity.
  - inversion Hadv; subst. split; [reflexivity|]. cbn. intros t Ht o.
    apply list_elem_of_singleton in Ht. subst t. cbn. apply Hk.
  - inversion Hadv; subst. split; [reflexivity|]. cbn. intros t Ht o.
    apply list_elem_of_singleton in Ht. subst t. cbn. apply Hk.
Qed.

(** Advancing a handler that settles idle either finishes it with
    [loading] reset, or parks it again with [loading] untouched. *)
Lemma advance_settles_idle {A} (m : Async J A) s s' st :
  settles_idle m -> advance m s = (s', st) ->
  (pending st = [] /\ loading s' = false) \/
  (exists t, pending st = [t] /\ loading s' = loading s /\
             forall o, settles_idle (settle t o)).
Proof.
  intros Hm. revert s. induction Hm as [a|e|eff k Hne Hk IH|u k Hk IH|r k Hk IH];
    intros s Hadv; cbn in Hadv.
  - inversion Hadv; subst. left. split; reflexivity.
  - inversion Hadv; subst. left. split; reflexivity.
  - destruct (IH _ Hadv) as [Hfin|(t & Hp & Hl & Ht)]; [left; exact Hfin|].
    right. exists t. split; [exact Hp|]. split; [|exact Ht].
    rewrite Hl. destruct eff; try reflexivity. exfalso. eapply Hne. reflexivity.
  - inversion Hadv; subst. right. exists (AtFetch u k). cbn. auto.
  - inversion Hadv; subst. right. exists (AtJson r k). cbn. auto.
Qed.
End LoadingLemmas.

(** ** The submit handler *)

(** The state a run of [handleSubmit] ends in, by the way the fetch
    settles. *)
Lemma handleSubmit_final net fd s :
  final (run net (handleSubmit fd) s) =
  let pending_state := apply_effect (setError None) (apply_effect (setLoading true) s) in
  match fetch_case (net (compare_url (URLSearchParams fd))) with
  | WellFormed cd =>
      apply_effect (setLoading false)
        (apply_effect (setComparisonData (Some cd)) pending_state)
  | NullBody =>
      apply_effect (setLoading false)
        (apply_effect (setComparisonData None) pending_state)
  | NonSuccess _ =>
      apply_effect (setLoading false)
        (apply_effect (setError (Some "Failed to fetch comparison data")) pending_state)
  | Exception e =>
      apply_effect (setLoading false)
        (apply_effect (setError (Some (message e))) pending_state)
  end.
Proof.
  unfold handleSubmit, fetch_case. cbn.
  destruct (net _) as [[[] st [[cd|]|e]]|e]; reflexivity.
Qed.


(** Up to the [await] of the fetch: two setter calls, then the request. *)
Lemma handleSubmit_advance fd s :
  exists k,
    advance (handleSubmit fd) s =
      (apply_effect (setError None) (apply_effect (setLoading true) s),
       Waiting (AtFetch (compare_url (URLSearchParams fd)) k)) /\
    forall o, settles_idle (k o).
Proof.
  unfold handleSubmit. cbn. eexists. split; [reflexivity|].
  intros [[[] st js]|e]; cbn.
  - apply si_json. intros [data|e]; cbn.
    + apply si_do; [discriminate|]. apply si_reset_ret.
    + apply si_do; [discriminate|]. apply si_reset_ret.
  - apply si_do; [discriminate|]. apply si_reset_ret.
  - apply si_do; [discriminate|]. apply si_reset_ret.
Qed.

(** C1 (amended): when the comparison fetch resolves with a non-success
    status, the run ends with the error "Failed to fetch comparison data"
    and [loading] reset, the error panel shows that message, and the stored
    comparison data is exactly what it was before the submit: a result of
    an earlier submit stays stored and its section stays rendered. *)
Theorem non_success_status_sets_error net fd s resp :
  net (compare_url (URLSearchParams fd)) = Fulfilled resp ->
  ok resp = false ->
  let out := run net (handleSubmit fd) s in
  error (final out) = Some "Failed to fetch comparison data" /\
  loading (final out) = false /\
  error_panel (render (final out)) = Some "Failed to fetch comparison data" /\
  comparisonData (final out) = comparisonData s /\
  (is_Some (results_section (render (final out))) <-> is_Some (comparisonData s)).
Proof.
  intros Hnet Hok out. subst out.
  rewrite handleSubmit_final. unfold fetch_case. rewrite Hnet, Hok. cbn.
  repeat split; try reflexivity.
  - rewrite fmap_is_Some. auto.
  - rewrite fmap_is_Some. auto.
Qed.

Lemma non_success_status_sets_error_witness :
  let out := run (fun _ => Fulfilled response_503)
                 (handleSubmit (formData initialState)) initialState in
  error (final out) = Some "Failed to fetch comparison data" /\
  loading (final out) = false /\
  error_panel (render (final out)) = Some "Failed to fetch comparison data" /\
  comparisonData (final out) = comparisonData initialState /\
  (is_Some (results_section (render (final out))) <-> is_Some (comparisonData initialState)).
Proof.
  apply (non_success_status_sets_error (fun _ => Fulfilled response_503)
           (formData initialState) initialState response_503); reflexivity.
Defined.

(** C1 (as stated) fails: after a result has been stored, a fetch that
    resolves with status 503 sets the error but the earlier result is still
    stored and its section is still rendered. *)
Lemma status_503_keeps_previous_result :
  let out := run (fun _ => Fulfilled response_503)
                 (handleSubmit (formData initialState)) (with_result sample_payload) in
  ok response_503 = false /\ status response_503 = 503 /\
  error (final out) = Some "Failed to fetch comparison data" /\
  comparisonData (final out) = Some sample_payload /\
  comparisonData (final out) <> None /\
  (barChart <$> results_section (render (final out))) =
    Some (formatChartData (with_result sample_payload)).
Proof.
  cbn. repeat split; try reflexivity. discriminate.
Qed.

(** C5 (amended): a submit, from any state, enters Pending at once with
    [loading] set and the prior error cleared, and is then parked at the
    fetch; the stored comparison data is not touched, so while the request
    is pending the button is disabled, no error is shown, and the results
    section shows whatever result was stored before.  This stays so for as
    long as the request is pending: when a success response arrives the
    handler is parked again, at the decoding of the body, with the state
    unchanged; the stored comparison data is replaced only in the step that
    ends the handler after the body has been decoded, and on a non-success
    status, a rejected fetch or an undecodable body the handler ends with
    the comparison data still as it was before the submit. *)
Theorem submit_enters_pending fd s :
  let s' := fst (advance (handleSubmit fd) s) in
  (exists k, snd (advance (handleSubmit fd) s) =
             Waiting (AtFetch (compare_url (URLSearchParams fd)) k)) /\
  loading s' = true /\
  error s' = None /\
  comparisonData s' = comparisonData s /\
  formData s' = formData s /\
  instanceTypes s' = instanceTypes s /\
  submit_disabled (render s') = true /\
  error_panel (render s') = None /\
  results_section (render s') = render_results s' <$> comparisonData s /\
  exists k,
    snd (advance (handleSubmit fd) s) =
      Waiting (AtFetch (compare_url (URLSearchParams fd)) k) /\
    forall o,
      match o with
      | Fulfilled r =>
          if ok r then
            exists k2,
              advance (k o) s' = (s', Waiting (AtJson r k2)) /\
              exists s3,
                advance (k2 (json r)) s' = (s3, Finished (Fulfilled tt)) /\
                loading s3 = false /\
                match json r with
                | Fulfilled data =>
                    comparisonData s3 = data /\ error s3 = None
                | Rejected e =>
                    comparisonData s3 = comparisonData s /\
                    error s3 = Some (message e)
                end
          else
            exists s2,
              advance (k o) s' = (s2, Finished (Fulfilled tt)) /\
              loading s2 = false /\
              comparisonData s2 = comparisonData s /\
              error s2 = Some "Failed to fetch comparison data"
      | Rejected e =>
          exists s2,
            advance (k o) s' = (s2, Finished (Fulfilled tt)) /\
            loading s2 = false /\
            comparisonData s2 = comparisonData s /\
            error s2 = Some (message e)
      end.
Proof.
  unfold handleSubmit. cbn.
  split; [eexists; reflexivity|]. do 8 (split; [reflexivity|]).
  eexists. split; [reflexivity|].
  intros [[[] st [data|e]]|e]; cbn.
  - eexists. split; [reflexivity|]. eexists. split; [reflexivity|]. auto.
  - eexists. split; [reflexivity|]. eexists. split; [reflexivity|]. auto.
  - eexists. split; [reflexivity|]. auto.
  - eexists. split; [reflexivity|]. auto.
  - eexists. split; [reflexivity|]. auto.
Qed.

(** C5 (as stated) fails: a submit issued from a state holding a result
    leaves that result stored and rendered while the new request is
    pending. *)
Lemma resubmit_shows_previous_result_while_pending :
  let s' := fst (advance (handleSubmit (formData initialState))
                         (with_result sample_payload)) in
  loading s' = true /\
  comparisonData s' = Some sample_payload /\
  comparisonData s' <> None /\
  (pieChart <$> results_section (render s')) =
    Some (formatPieData (with_result sample_payload)).
Proof.
  cbn. repeat split; try reflexivity. discriminate.
Qed.



(** A submit from a failed state whose fetch succeeds: the error is gone
    and the payload is stored. *)
Example successful_submit_after_failure :
  let out := run (fun _ => Fulfilled (response_200 sample_payload))
                 (handleSubmit (formData initialState))
                 (with_error "Failed to fetch comparison data") in
  comparisonData (final out) = Some sample_payload /\
  error (final out) = None /\
  loading (final out) = false /\
  error_panel (render (final out)) = None.
Proof. cbn. repeat split; reflexivity. Qed.

(** ** One comparison request at a time *)

Lemma fetchInstanceTypes_keeps_loading : keeps_loading fetchInstanceTypes.
Proof.
  unfold fetchInstanceTypes. unfold_monad.
  apply keeps_loading_try_catch.
  - apply keeps_loading_bind.
    + apply keeps_loading_for_of. intros p types.
      unfold retrieve_into, fetch, response_json. unfold_monad. cbn.
      apply kl_fetch. intros [r|e]; cbn; [|constructor].
      destruct (ok r); [|constructor].
      apply kl_json. intros [c|e]; cbn; constructor.
    + intros types. apply kl_do; [discriminate|constructor].
  - intros e. apply kl_do; [discriminate|constructor].
Qed.

Lemma mount_invariant : system_invariant mount.
Proof.
  unfold mount.
  destruct (advance fetchInstanceTypes initialState) as [s st] eqn:Hadv.
  destruct (advance_keeps_loading _ _ _ _ fetchInstanceTypes_keeps_loading Hadv)
    as [Hl Ht].
  split; [|split]; cbn.
  - rewrite Hl. reflexivity.
  - intros t H. inversion H.
  - exact Ht.
Qed.

Lemma step_invariant sys l sys' :
  system_invariant sys -> step sys l sys' -> system_invariant sys'.
Proof.
  intros (Hlen & Hsub & Hload) Hstep.
  destruct Hstep as [sys name value|sys Hen|sys before t after o Hs|sys before t after o Hs].
  - (* the form is edited *)
    unfold on_input, handleInputChange. cbn. split; [|split]; cbn; assumption.
  - (* submit *)
    cbn in Hen. rewrite Hen in Hlen.
    apply nil_length_inv in Hlen.
    unfold on_submit.
    destruct (handleSubmit_advance (formData (app sys)) (app sys)) as (k & Hadv & Hk).
    rewrite Hadv, Hlen. cbn. split; [|split]; cbn.
    + reflexivity.
    + intros t Ht o. apply list_elem_of_singleton in Ht. subst t. cbn. apply Hk.
    + exact Hload.
  - (* the parked submit handler is resumed *)
    assert (Hone : loading (app sys) = true /\ before = [] /\ after = []).
    { rewrite Hs in Hlen. rewrite length_app in Hlen. cbn in Hlen.
      destruct (loading (app sys)); [|lia].
      destruct before, after; cbn in Hlen; try lia. auto. }
    destruct Hone as (Hl & -> & ->).
    assert (Ht : forall o, settles_idle (settle t o)).
    { apply Hsub. rewrite Hs. set_solver. }
    unfold on_compare_settles.
    destruct (advance (settle t o) (app sys)) as [s st] eqn:Hadv.
    destruct (advance_settles_idle _ _ _ _ (Ht o) Hadv)
      as [[Hp Hl']|(t' & Hp & Hl' & Ht')]; rewrite Hp; cbn.
    + split; [|split]; cbn.
      * rewrite Hl'. reflexivity.
      * intros t0 H0. inversion H0.
      * exact Hload.
    + split; [|split]; cbn.
      * rewrite Hl', Hl. reflexivity.
      * intros t0 H0 o0. apply list_elem_of_singleton in H0. subst t0. apply Ht'.
      * exact Hload.
  - (* a parked catalog retrieval is resumed *)
    assert (Ht : forall o, keeps_loading (settle t o)).
    { apply Hload. rewrite Hs. set_solver. }
    unfold on_catalog_settles.
    destruct (advance (settle t o) (app sys)) as [s st] eqn:Hadv.
    destruct (advance_keeps_loading _ _ _ _ (Ht o) Hadv) as [Hl' Ht'].
    split; [|split]; cbn.
    + rewrite Hl'. exact Hlen.
    + exact Hsub.
    + intros t0 H0. rewrite Hs in Hload.
      apply elem_of_app in H0 as [H0|H0]; [apply Hload; set_solver|].
      apply elem_of_app in H0 as [H0|H0]; [apply Ht'; exact H0|].
      apply Hload. set_solver.
Qed.

Lemma reachable_invariant sys : reachable sys -> system_invariant sys.
Proof.
  induction 1 as [|sys l sys' _ IH Hstep].
  - apply mount_invariant.
  - eapply step_invariant; eassumption.
Qed.

(** C8: in every reachable system at most one invocation of the submit
    handler is in flight, hence at most one comparison fetch; a request is
    pending exactly when [loading] is set, the submit button is then
    disabled, and no submit step is possible before the pending handler has
    ended. *)
Theorem at_most_one_comparison_in_flight sys :
  reachable sys ->
  (length (submits sys) <= 1)%nat /\
  (fetches_in_flight sys <= 1)%nat /\
  (Pending sys <-> loading (app sys) = true) /\
  (Pending sys <-> submit_disabled (render (app sys)) = true) /\
  (Pending sys -> forall sys', ~ step sys UserSubmit sys').
Proof.
  intros Hreach. destruct (reachable_invariant sys Hreach) as (Hlen & _ & _).
  assert (Hp : Pending sys <-> loading (app sys) = true).
  { unfold Pending. destruct (loading (app sys)).
    - split; [reflexivity|]. intros _ Hnil. rewrite Hnil in Hlen. discriminate.
    - apply nil_length_inv in Hlen. split; [intros H; contradiction|discriminate]. }
  assert (Hone : (length (submits sys) <= 1)%nat).
  { rewrite Hlen. destruct (loading (app sys)); lia. }
  split; [exact Hone|]. split; [|split; [exact Hp|split; [exact Hp|]]].
  - unfold fetches_in_flight. etransitivity; [apply length_filter|exact Hone].
  - intros Hpend sys' Hstep. inversion Hstep as [|? Hen| |]; subst.
    cbn in Hen. apply Hp in Hpend. congruence.
Qed.

Lemma at_most_one_comparison_in_flight_witness :
  let sys := on_submit mount in
  (length (submits sys) <= 1)%nat /\
  (fetches_in_flight sys <= 1)%nat /\
  (Pending sys <-> loading (app sys) = true) /\
  (Pending sys <-> submit_disabled (render (app sys)) = true) /\
  (Pending sys -> forall sys', ~ step sys UserSubmit sys').
Proof.
  apply (at_most_one_comparison_in_flight (on_submit mount)).
  apply (reach_step mount UserSubmit).
  - apply reach_mount.
  - apply step_submit. reflexivity.
Defined.

(** ** The catalog loader *)

Lemma protocol_app {J} (t1 t2 : list (Event J)) :
  protocol (t1 ++ t2) = (protocol t1 ++ protocol t2)%list.
Proof. apply omap_app. Qed.

(** One pass through the loop body. *)
Lemma run_retrieve_into net p types s :
  let out := run net (retrieve_into p types) s in
  final out = s /\
  protocol (trace out) = retrieval_marks p /\
  completion out =
    match net (instances_url p) with
    | Fulfilled r =>
        if ok r then
          match json r with
          | Fulfilled c => Fulfilled (<[p := c]> types)
          | Rejected e => Rejected e
          end
        else Fulfilled types
    | Rejected e => Rejected e
    end.
Proof.
  unfold retrieve_into, fetch, response_json. unfold_monad. cbn.
  destruct (net (instances_url p)) as [[[] st [c|e]]|e]; cbn; auto.
Qed.

Lemma collected_cons net p ps types :
  collected net (p :: ps) types =
  collected net ps (match retrieved net p with
                    | Some c => <[p := c]> types
                    | None => types
                    end).
Proof. reflexivity. Qed.

(** The whole loop: the state is untouched, the retrievals follow one
    another, and the loop ends with the collected object unless a retrieval
    raises, which ends the loop at once. *)
Lemma run_loop net ps : forall types s,
  let out := run net (for_of ps retrieve_into types) s in
  final out = s /\
  (protocol (trace out) `prefix_of` flat_map retrieval_marks ps) /\
  (MPublished ∉ protocol (trace out)) /\
  if settles_cleanly net ps
  then completion out = Fulfilled (collected net ps types) /\
       protocol (trace out) = flat_map retrieval_marks ps
  else exists e, completion out = Rejected e.
Proof.
  induction ps as [|p ps IH]; intros types s out; subst out.
  - cbn. split; [reflexivity|]. split; [apply prefix_nil|].
    split; [apply not_elem_of_nil|]. split; reflexivity.
  - cbn [for_of]. rewrite run_bind.
    destruct (run_retrieve_into net p types s) as (Hf & Hp & Hc).
    cbn zeta in Hf, Hp, Hc.
    destruct (run net (retrieve_into p types) s) as [f t c].
    cbn [final trace completion] in Hf, Hp, Hc |- *. subst f c.
    cbn [settles_cleanly forallb]. fold (settles_cleanly net ps).
    rewrite collected_cons. unfold raises, retrieved.
    assert (Hmark : MPublished ∉ protocol t).
    { rewrite Hp. unfold retrieval_marks. intros H.
      apply elem_of_cons in H as [H|H]; [discriminate|].
      apply elem_of_cons in H as [H|H]; [discriminate|]. inversion H. }
    assert (Hstop : (protocol t) `prefix_of` (flat_map retrieval_marks (p :: ps))).
    { rewrite Hp. cbn [flat_map]. apply prefix_app_r. reflexivity. }
    assert (Hgo : forall types',
      let out := run net (for_of ps retrieve_into types') s in
      final out = s /\
      (protocol (t ++ trace out) `prefix_of` flat_map retrieval_marks (p :: ps)) /\
      (MPublished ∉ protocol (t ++ trace out)) /\
      if settles_cleanly net ps
      then completion out = Fulfilled (collected net ps types') /\
           protocol (t ++ trace out) = flat_map retrieval_marks (p :: ps)
      else exists e, completion out = Rejected e).
    { intros types'. destruct (IH types' s) as (IHf & IHp & IHn & IHc).
      cbn zeta in IHf, IHp, IHn, IHc |- *. rewrite protocol_app, Hp. cbn [flat_map].
      split; [exact IHf|]. split; [apply prefix_app; exact IHp|].
      split; [rewrite Hp in Hmark; rewrite elem_of_app; tauto|].
      destruct (settles_cleanly net ps); [|exact IHc].
      destruct IHc as [-> ->]. split; reflexivity. }
    destruct (net (instances_url p)) as [[[] st [c|e]]|e]; cbn.
    + apply Hgo.
    + split; [reflexivity|]. split; [exact Hstop|]. split; [exact Hmark|].
      eexists; reflexivity.
    + apply Hgo.
    + apply Hgo.
    + split; [reflexivity|]. split; [exact Hstop|]. split; [exact Hmark|].
      eexists; reflexivity.
Qed.

(** A whole run of the loader. *)
Lemma run_fetchInstanceTypes net s :
  let out := run net fetchInstanceTypes s in
  (protocol (trace out) `prefix_of` sequential_schedule) /\
  if settles_cleanly net providers
  then protocol (trace out) = sequential_schedule /\
       final out = apply_effect (setInstanceTypes (collected net providers ∅)) s
  else (MPublished ∉ protocol (trace out)) /\ final out = s.
Proof.
  unfold fetchInstanceTypes. unfold_monad. cbn zeta.
  rewrite run_try_catch, run_bind.
  destruct (run_loop net providers ∅ s) as (Hf & Hp & Hn & Hc).
  cbn zeta in Hf, Hp, Hn, Hc. unfold sequential_schedule.
  destruct (run net (for_of providers retrieve_into ∅) s) as [f t c].
  cbn [final trace completion] in Hf, Hp, Hn, Hc |- *. subst f.
  destruct (settles_cleanly net providers).
  - destruct Hc as [-> Ht]. cbn -[collected protocol flat_map providers].
    rewrite protocol_app, Ht.
    split; [reflexivity|]. split; reflexivity.
  - destruct Hc as [e ->]. cbn -[collected protocol flat_map providers].
    rewrite protocol_app. cbn -[flat_map providers]. rewrite app_nil_r.
    split; [apply prefix_app_r; exact Hp|]. split; [exact Hn|reflexivity].
Qed.

Lemma collected_lookup net ps : forall types p,
  collected net ps types !! p =
  match (if decide (p ∈ ps) then retrieved net p else None) with
  | Some c => Some c
  | None => types !! p
  end.
Proof.
  induction ps as [|q ps IH]; intros types p.
  - cbn. destruct (decide (p ∈ [])) as [H|_]; [inversion H|reflexivity].
  - rewrite collected_cons, IH.
    destruct (decide (p ∈ ps)) as [Hin|Hnin].
    + destruct (decide (p ∈ q :: ps)) as [_|Hn]; [|exfalso; apply Hn; set_solver].
      destruct (retrieved net p) as [c|] eqn:Hp; [reflexivity|].
      destruct (decide (q = p)) as [->|Hne].
      * rewrite Hp. reflexivity.
      * destruct (retrieved net q); [apply lookup_insert_ne; exact Hne|reflexivity].
    + destruct (decide (q = p)) as [->|Hne].
      * destruct (decide (p ∈ p :: ps)) as [_|Hn]; [|exfalso; apply Hn; set_solver].
        destruct (retrieved net p) as [c|]; [apply lookup_insert_eq|reflexivity].
      * destruct (decide (p ∈ q :: ps)) as [Hin|_].
        { apply elem_of_cons in Hin as [->|Hin]; [congruence|contradiction]. }
        destruct (retrieved net q); [apply lookup_insert_ne; exact Hne|reflexivity].
Qed.

(** A retrieval that raises ends the loader: nothing is published and
    the state is left as it was. *)
Lemma exception_publishes_nothing net s :
  settles_cleanly net providers = false ->
  final (run net fetchInstanceTypes s) = s /\
  MPublished ∉ protocol (trace (run net fetchInstanceTypes s)).
Proof.
  intros Hraise. destruct (run_fetchInstanceTypes net s) as [_ H].
  cbn zeta in H. rewrite Hraise in H. destruct H as [Hn Hf]. auto.
Qed.

(** C3 (amended): in every run of the catalog loader in which no retrieval
    ends in an exception, a provider whose response has a non-success status
    is left absent and gets no options, while every provider is still
    requested and every provider that answered with a catalog has it
    published. *)
Theorem failed_status_leaves_other_catalogs net s p :
  settles_cleanly net providers = true ->
  p ∈ providers ->
  let out := run net fetchInstanceTypes s in
  MIssued p ∈ protocol (trace out) /\
  instanceTypes (final out) !! p = retrieved net p /\
  (forall r, net (instances_url p) = Fulfilled r -> ok r = false ->
     instanceTypes (final out) !! p = None /\
     renderInstanceOptions (final out) p = None) /\
  (forall r, net (instances_url p) = Fulfilled r -> ok r = true ->
     exists c, json r = Fulfilled c /\ instanceTypes (final out) !! p = Some c).
Proof.
  intros Hclean Hp out. subst out.
  destruct (run_fetchInstanceTypes net s) as [_ H]. cbn zeta in H.
  rewrite Hclean in H. destruct H as [Ht Hf]. rewrite Ht, Hf.
  assert (Hlook : collected net providers ∅ !! p = retrieved net p).
  { rewrite collected_lookup. destruct (decide (p ∈ providers)); [|contradiction].
    destruct (retrieved net p); [reflexivity|apply lookup_empty]. }
  assert (Hnr : raises net p = false).
  { unfold settles_cleanly in Hclean. rewrite forallb_forall in Hclean.
    apply negb_true_iff. apply Hclean. apply list_elem_of_In. exact Hp. }
  cbn [apply_effect instanceTypes]. unfold renderInstanceOptions.
  cbn [apply_effect instanceTypes]. rewrite Hlook.
  split; [|split; [reflexivity|split]].
  - unfold sequential_schedule. rewrite elem_of_app. left.
    apply list_elem_of_In, in_flat_map. exists p. split.
    + apply list_elem_of_In. exact Hp.
    + left. reflexivity.
  - intros r Hr Hok. unfold retrieved. rewrite Hr, Hok. split; reflexivity.
  - intros r Hr Hok. unfold retrieved, raises in *. rewrite Hr, Hok in *.
    destruct (json r) as [c|e]; [exists c; split; reflexivity|discriminate].
Qed.

Lemma failed_status_leaves_other_catalogs_witness :
  let out := run gcp_status_500 fetchInstanceTypes initialState in
  MIssued "azure" ∈ protocol (trace out) /\
  instanceTypes (final out) !! "azure" = retrieved gcp_status_500 "azure" /\
  (forall r, gcp_status_500 (instances_url "azure") = Fulfilled r -> ok r = false ->
     instanceTypes (final out) !! "azure" = None /\
     renderInstanceOptions (final out) "azure" = None) /\
  (forall r, gcp_status_500 (instances_url "azure") = Fulfilled r -> ok r = true ->
     exists c, json r = Fulfilled c /\ instanceTypes (final out) !! "azure" = Some c).
Proof.
  apply (failed_status_leaves_other_catalogs gcp_status_500 initialState "azure").
  - reflexivity.
  - unfold providers. apply list_elem_of_further, list_elem_of_further, list_elem_of_here.
Defined.

(** [gcp] answers with status 500: the other two catalogs are published and
    selectable, the selector of [gcp] has no options. *)
Example gcp_500_keeps_aws_and_azure :
  let out := run gcp_status_500 fetchInstanceTypes initialState in
  instanceTypes (final out) !! "aws" = Some (sample_catalog "aws") /\
  instanceTypes (final out) !! "azure" = Some (sample_catalog "azure") /\
  instanceTypes (final out) !! "gcp" = None /\
  renderInstanceOptions (final out) "gcp" = None /\
  renderInstanceOptions (final out) "aws" =
    Some [("GENERAL PURPOSE", ["aws-small"; "aws-large"])].
Proof. cbn. repeat split; reflexivity. Qed.

(** C3 (as stated) fails: when the request to [gcp] is rejected by the
    network, the catalog of [aws], which was retrieved, is not published,
    and [azure], which would have answered, is never requested. *)
Lemma network_error_blocks_other_providers :
  let out := run gcp_unreachable fetchInstanceTypes initialState in
  retrieved gcp_unreachable "aws" = Some (sample_catalog "aws") /\
  instanceTypes (final out) !! "aws" = None /\
  retrieved gcp_unreachable "azure" = Some (sample_catalog "azure") /\
  instanceTypes (final out) !! "azure" = None /\
  (MIssued "azure" ∉ protocol (trace out)) /\
  renderInstanceOptions (final out) "aws" = None.
Proof.
  cbn. repeat split; try reflexivity.
  intros H. repeat (apply elem_of_cons in H as [H|H]; [discriminate|]).
  inversion H.
Qed.

Lemma run_retrieve_into_full net p types s :
  trace (run net (retrieve_into p types) s) = retrieval_trace net p.
Proof.
  unfold retrieve_into, retrieval_trace, fetch, response_json. unfold_monad. cbn.
  destruct (net (instances_url p)) as [[[] st [c|e]]|e]; reflexivity.
Qed.

(** The whole trace of the loop, event by event, and its completion. *)
Lemma run_loop_full net ps : forall types s,
  let out := run net (for_of ps retrieve_into types) s in
  trace out = loop_trace net ps /\
  completion out =
    match first_exception net ps with
    | Some e => Rejected e
    | None => Fulfilled (collected net ps types)
    end.
Proof.
  induction ps as [|p ps IH]; intros types s out; subst out.
  - cbn. split; reflexivity.
  - cbn [for_of loop_trace first_exception]. rewrite run_bind.
    pose proof (run_retrieve_into_full net p types s) as Ht.
    destruct (run_retrieve_into net p types s) as (Hf & _ & Hc).
    cbn zeta in Hf, Hc.
    destruct (run net (retrieve_into p types) s) as [f t c].
    cbn [final trace completion] in Hf, Ht, Hc |- *. subst f c t.
    rewrite collected_cons. unfold raises, retrieved.
    destruct (net (instances_url p)) as [[[] st [c|e]]|e]; cbn [ok json].
    + destruct (IH (<[p := c]> types) s) as [IHt IHc]. cbn zeta in IHt, IHc.
      cbn [final trace completion]. rewrite IHt, IHc. split; reflexivity.
    + cbn [final trace completion]. rewrite app_nil_r. split; reflexivity.
    + destruct (IH types s) as [IHt IHc]. cbn zeta in IHt, IHc.
      cbn [final trace completion]. rewrite IHt, IHc. split; reflexivity.
    + destruct (IH types s) as [IHt IHc]. cbn zeta in IHt, IHc.
      cbn [final trace completion]. rewrite IHt, IHc. split; reflexivity.
    + cbn [final trace completion]. rewrite app_nil_r. split; reflexivity.
Qed.

(** The whole trace of a run of the loader. *)
Lemma run_fetchInstanceTypes_full net s :
  trace (run net fetchInstanceTypes s) =
  (loop_trace net providers ++ [closing_event net])%list.
Proof.
  unfold fetchInstanceTypes, closing_event. unfold_monad.
  rewrite run_try_catch, run_bind.
  destruct (run_loop_full net providers ∅ s) as [Ht Hc]. cbn zeta in Ht, Hc.
  destruct (run net (for_of providers retrieve_into ∅) s) as [f t c].
  cbn [final trace completion] in Ht, Hc |- *. subst t c.
  destruct (first_exception net providers) as [e|]; reflexivity.
Qed.

(** In the trace of a run every request but the first directly follows the
    settling of the previous retrieval, a body is decoded directly after its
    success response has arrived, and a response arrives directly after its
    request. *)
Lemma loader_trace_order net :
  let tr := (loop_trace net providers ++ [closing_event net])%list in
  (forall j u, tr !! S j = Some (Issued u) ->
     exists ev, tr !! j = Some ev /\ settled_before_request ev) /\
  (forall j o, tr !! S j = Some (Decoded o) ->
     exists u r, tr !! j = Some (Arrived u (Fulfilled r)) /\
                 ok r = true /\ o = json r) /\
  (forall j u o, tr !! S j = Some (Arrived u o) ->
     tr !! j = Some (Issued u) /\ o = net u).
Proof.
  unfold closing_event, providers.
  cbn [loop_trace first_exception]. unfold retrieval_trace, raises.
  destruct (net (instances_url "aws")) as [[[] st1 [c1|e1]]|e1] eqn:E1;
    cbn [ok json app];
    try match goal with
        | |- context [net (instances_url "gcp")] =>
            destruct (net (instances_url "gcp")) as [[[] st2 [c2|e2]]|e2] eqn:E2;
            cbn [ok json app]
        end;
    try match goal with
        | |- context [net (instances_url "azure")] =>
            destruct (net (instances_url "azure")) as [[[] st3 [c3|e3]]|e3] eqn:E3;
            cbn [ok json app]
        end;
    (split; [intros j u H|split; [intros j o H|intros j u o H]]);
    do 11 (destruct j as [|j];
           [ cbn in H;
             first [ discriminate H
                   | inversion H; subst; clear H; cbn;
                     first [ eexists; split; [reflexivity|first [exact I|reflexivity]]
                           | do 2 eexists; split; [reflexivity|split; reflexivity]
                           | split; [reflexivity|congruence] ] ]
           | ]);
    cbn in H; discriminate H.
Qed.

(** C4 (amended): the three retrievals are made one after another, in the
    order aws, gcp, azure: a request is issued, its response arrives, the
    body of a success response is decoded, and only then is the next
    request issued (directly after the decoding, or directly after the
    arrival of a response without success status, whose body is not read).
    The catalog is published by one call after all three have settled, and
    only when no retrieval raised; then the state holds the complete
    collected catalog, otherwise it is left unchanged. *)
Theorem catalog_retrievals_run_in_sequence net s :
  let out := run net fetchInstanceTypes s in
  let tr := protocol (trace out) in
  (tr `prefix_of` sequential_schedule) /\
  (forall j q, tr !! S j = Some (MIssued q) ->
     exists p, tr !! j = Some (MArrived p) /\ p <> q) /\
  (MPublished ∈ tr <-> tr = sequential_schedule) /\
  (if settles_cleanly net providers
   then tr = sequential_schedule /\
        final out = apply_effect (setInstanceTypes (collected net providers ∅)) s
   else (MPublished ∉ tr) /\ final out = s) /\
  trace out = (loop_trace net providers ++ [closing_event net])%list /\
  (forall j u, trace out !! S j = Some (Issued u) ->
     exists ev, trace out !! j = Some ev /\ settled_before_request ev) /\
  (forall j o, trace out !! S j = Some (Decoded o) ->
     exists u r, trace out !! j = Some (Arrived u (Fulfilled r)) /\
                 ok r = true /\ o = json r) /\
  (forall j u o, trace out !! S j = Some (Arrived u o) ->
     trace out !! j = Some (Issued u) /\ o = net u).
Proof.
  cbn zeta. destruct (run_fetchInstanceTypes net s) as [Hpre H]. cbn zeta in Hpre, H.
  split; [exact Hpre|]. split; [|split; [|split; [exact H|]]].
  - intros j q Hj.
    assert (Hs : sequential_schedule !! S j = Some (MIssued q)).
    { eapply prefix_lookup_Some; eassumption. }
    assert (Hlt : is_Some (protocol (trace (run net fetchInstanceTypes s)) !! j)).
    { apply lookup_lt_is_Some. apply lookup_lt_Some in Hj. lia. }
    destruct Hlt as [x Hx].
    assert (Hsx : sequential_schedule !! j = Some x).
    { eapply prefix_lookup_Some; eassumption. }
    rewrite Hx. unfold sequential_schedule in Hs, Hsx. cbn in Hs, Hsx.
    do 7 (destruct j as [|j];
          [cbn in Hs, Hsx;
           first [discriminate Hs
                 |inversion Hs; subst; inversion Hsx; subst;
                  eexists; split; [reflexivity|discriminate]]|]).
    cbn in Hs. discriminate.
  - split.
    + intros Hin. destruct (settles_cleanly net providers).
      * apply H.
      * destruct H as [Hn _]. contradiction.
    + intros ->. unfold sequential_schedule. rewrite elem_of_app. right.
      apply list_elem_of_here.
  - rewrite run_fetchInstanceTypes_full. split; [reflexivity|].
    apply loader_trace_order.
Qed.

(** All three providers answer with a catalog: the full trace. *)
Example trace_when_all_answer :
  trace (run catalogs_up fetchInstanceTypes initialState) =
  [Issued (instances_url "aws"); Arrived (instances_url "aws") (catalog_200 "aws");
   Decoded (Fulfilled (sample_catalog "aws"));
   Issued (instances_url "gcp"); Arrived (instances_url "gcp") (catalog_200 "gcp");
   Decoded (Fulfilled (sample_catalog "gcp"));
   Issued (instances_url "azure"); Arrived (instances_url "azure") (catalog_200 "azure");
   Decoded (Fulfilled (sample_catalog "azure"));
   Performed (setInstanceTypes (collected catalogs_up providers ∅))].
Proof. reflexivity. Qed.

(** C4 (as stated) fails: even when all three providers answer, the
    request to [gcp] is issued only after the response of [aws] has
    arrived. *)
Lemma retrievals_are_not_concurrent :
  ~ issued_concurrently
      (protocol (trace (run catalogs_up fetchInstanceTypes initialState))).
Proof.
  intros H. specialize (H 1%nat 2%nat "aws" "gcp" eq_refl eq_refl). lia.
Qed.

(** ** The derivation of the chart data *)

Lemma map_index_from_lookup {A B} (f : A -> nat -> B) l : forall n i,
  map_index_from f n l !! i = (fun x => f x (n + i)%nat) <$> l !! i.
Proof.
  induction l as [|x l IH]; intros n i; [reflexivity|].
  destruct i as [|i]; cbn.
  - rewrite Nat.add_0_r. reflexivity.
  - rewrite IH. replace (S n + i)%nat with (n + S i)%nat by lia. reflexivity.
Qed.

Lemma map_index_from_length {A B} (f : A -> nat -> B) l : forall n,
  length (map_index_from f n l) = length l.
Proof. induction l as [|x l IH]; intros n; cbn; [|rewrite IH]; reflexivity. Qed.

(** With distinct keys, [indexOf] finds a key at its own position. *)
Lemma indexOf_lookup l : forall i x,
  NoDup l -> l !! i = Some x -> indexOf l x = Z.of_nat i.
Proof.
  induction l as [|y l IH]; intros i x Hnd Hi; [discriminate|].
  apply NoDup_cons in Hnd as [Hy Hnd]. cbn [indexOf].
  destruct i as [|i]; cbn in Hi.
  - inversion Hi; subst. rewrite String.eqb_refl. reflexivity.
  - assert (Hne : y <> x).
    { intros ->. apply Hy. eapply list_elem_of_lookup_2. exact Hi. }
    apply String.eqb_neq in Hne. rewrite Hne.
    rewrite (IH i x Hnd Hi).
    destruct (Z.ltb_spec (Z.of_nat i) 0); lia.
Qed.

Lemma array_get_nat {A} (a : list A) (i : nat) : array_get a (Z.of_nat i) = a !! i.
Proof.
  unfold array_get. destruct (Z.ltb_spec (Z.of_nat i) 0); [lia|].
  rewrite Nat2Z.id. reflexivity.
Qed.

(** The colors of the share series are determined by the keys alone. *)
Lemma pie_colors s cd :
  comparisonData s = Some cd ->
  map color (formatPieData s) =
  map (fun p => array_get COLORS (indexOf (Object_keys (results cd)) p))
      (Object_keys (results cd)).
Proof.
  intros Hcd. unfold formatPieData, Object_keys, Object_entries. rewrite Hcd.
  rewrite !map_map. apply map_ext. intros [p d]. reflexivity.
Qed.

Example toUpperCase_provider : toUpperCase "azure" = "AZURE".
Proof. reflexivity. Qed.

Example chart_series_of_sample :
  map (fun r => (provider r, total r)) (formatChartData (with_result sample_payload)) =
  [("AWS", 42 # 1); ("GCP", 71 # 2); ("AZURE", 201 # 4)].
Proof. reflexivity. Qed.

Example share_series_of_sample :
  map (fun r => (name r, color r)) (formatPieData (with_result sample_payload)) =
  [("AWS", Some "#3B82F6"); ("GCP", Some "#10B981"); ("AZURE", Some "#F59E0B")].
Proof. reflexivity. Qed.

(** C6: for a stored result, the chart series has exactly one record per
    entry of the result map, in the order of the entries, and the record of
    an entry carries the provider's upper-case label, its compute, storage
    and total cost and its instance type; so three providers give three
    records. *)
Theorem chart_series_follows_result_entries s cd :
  comparisonData s = Some cd ->
  length (formatChartData s) = length (Object_keys (results cd)) /\
  map provider (formatChartData s) = map toUpperCase (Object_keys (results cd)) /\
  forall i p d,
    Object_entries (results cd) !! i = Some (p, d) ->
    formatChartData s !! i =
      Some {| provider := toUpperCase p;
              compute := compute_cost d;
              storage := storage_cost d;
              total := total_cost d;
              instance := instance_type d |}.
Proof.
  intros Hcd. unfold formatChartData, Object_keys, Object_entries. rewrite Hcd.
  split; [|split].
  - rewrite !length_map. reflexivity.
  - rewrite !map_map. apply map_ext. intros [p d]. reflexivity.
  - intros i p d Hi. change (map ?f ?l) with (f <$> l).
    rewrite list_lookup_fmap, Hi. reflexivity.
Qed.

Lemma chart_series_follows_result_entries_witness :
  length (formatChartData (with_result sample_payload)) = 3%nat /\
  map provider (formatChartData (with_result sample_payload)) = ["AWS"; "GCP"; "AZURE"] /\
  forall i p d,
    Object_entries (results sample_payload) !! i = Some (p, d) ->
    formatChartData (with_result sample_payload) !! i =
      Some {| provider := toUpperCase p;
              compute := compute_cost d;
              storage := storage_cost d;
              total := total_cost d;
              instance := instance_type d |}.
Proof.
  apply (chart_series_follows_result_entries (with_result sample_payload) sample_payload).
  reflexivity.
Defined.

(** C7: for a stored result with distinct keys, the share series has one
    record per entry, in the order of the entries; the record at position
    [i] carries the provider's upper-case label, its total cost, and the
    color at position [i] of the fixed palette [COLORS] (none beyond the
    palette's four entries).  Two results with the same keys in the same
    order get the same colors. *)
Theorem share_series_colors_by_position s cd :
  comparisonData s = Some cd ->
  NoDup (Object_keys (results cd)) ->
  length (formatPieData s) = length (Object_keys (results cd)) /\
  (forall i p d,
     Object_entries (results cd) !! i = Some (p, d) ->
     formatPieData s !! i =
       Some {| name := toUpperCase p; value := total_cost d; color := COLORS !! i |}) /\
  (forall s' cd',
     comparisonData s' = Some cd' ->
     Object_keys (results cd') = Object_keys (results cd) ->
     map color (formatPieData s') = map color (formatPieData s)).
Proof.
  intros Hcd Hnd. split; [|split].
  - unfold formatPieData, Object_keys, Object_entries. rewrite Hcd.
    rewrite !length_map. reflexivity.
  - intros i p d Hi. unfold formatPieData. rewrite Hcd.
    change (map ?f ?l) with (f <$> l). rewrite list_lookup_fmap, Hi. cbn.
    assert (Hk : Object_keys (results cd) !! i = Some p).
    { unfold Object_keys. change (map ?f ?l) with (f <$> l).
      unfold Object_entries in Hi. rewrite list_lookup_fmap, Hi. reflexivity. }
    rewrite (indexOf_lookup _ _ _ Hnd Hk), array_get_nat. reflexivity.
  - intros s' cd' Hcd' Hkeys.
    rewrite (pie_colors s' cd' Hcd'), (pie_colors s cd Hcd), Hkeys. reflexivity.
Qed.

Lemma share_series_colors_by_position_witness :
  length (formatPieData (with_result sample_payload)) = 3%nat /\
  (forall i p d,
     Object_entries (results sample_payload) !! i = Some (p, d) ->
     formatPieData (with_result sample_payload) !! i =
       Some {| name := toUpperCase p; value := total_cost d; color := COLORS !! i |}) /\
  (forall s' cd',
     comparisonData s' = Some cd' ->
     Object_keys (results cd') = Object_keys (results sample_payload) ->
     map color (formatPieData s') = map color (formatPieData (with_result sample_payload))).
Proof.
  apply (share_series_colors_by_position (with_result sample_payload) sample_payload).
  - reflexivity.
  - apply (bool_decide_unpack _). reflexivity.
Defined.

(** C9: the chart series and the share series are functions of the stored
    comparison data alone: two states that hold the same comparison data
    give the same series, whatever the form, the flags and the catalog are,
    and no state setter other than [setComparisonData] changes them. *)
Theorem derivation_depends_on_result_only s1 s2 :
  comparisonData s1 = comparisonData s2 ->
  formatChartData s1 = formatChartData s2 /\
  formatPieData s1 = formatPieData s2 /\
  forall eff, (forall d, eff <> setComparisonData d) ->
    formatChartData (apply_effect eff s1) = formatChartData s2 /\
    formatPieData (apply_effect eff s1) = formatPieData s2.
Proof.
  intros H. unfold formatChartData, formatPieData. rewrite H.
  split; [reflexivity|]. split; [reflexivity|].
  intros eff Hne.
  assert (Hc : comparisonData (apply_effect eff s1) = comparisonData s2).
  { rewrite <- H. destruct eff; try reflexivity. exfalso. eapply Hne. reflexivity. }
  rewrite Hc. split; reflexivity.
Qed.

Lemma derivation_depends_on_result_only_witness :
  formatChartData (apply_effect (setLoading true) (with_result sample_payload)) =
    formatChartData (with_result sample_payload) /\
  formatPieData (apply_effect (setLoading true) (with_result sample_payload)) =
    formatPieData (with_result sample_payload) /\
  forall eff, (forall d, eff <> setComparisonData d) ->
    formatChartData
      (apply_effect eff (apply_effect (setLoading true) (with_result sample_payload))) =
      formatChartData (with_result sample_payload) /\
    formatPieData
      (apply_effect eff (apply_effect (setLoading true) (with_result sample_payload))) =
      formatPieData (with_result sample_payload).
Proof.
  apply (derivation_depends_on_result_only
           (apply_effect (setLoading true) (with_result sample_payload))
           (with_result sample_payload)).
  reflexivity.
Defined.

(** ** The highlighted winner *)

(** What [service_cheapest] selects: an entry whose total is minimal, and
    the first such entry. *)
Lemma service_cheapest_spec entries : forall p c,
  service_cheapest entries = Some (p, c) ->
  exists i d,
    entries !! i = Some (p, d) /\ c = total_cost d /\
    (forall j q e, entries !! j = Some (q, e) -> (c <= total_cost e)%Q) /\
    (forall j q e, (j < i)%nat -> entries !! j = Some (q, e) -> (c < total_cost e)%Q).
Proof.
  induction entries as [|[p0 d0] rest IH]; intros p c Hsel; [discriminate|].
  cbn in Hsel. destruct (service_cheapest rest) as [[q c']|] eqn:Hrest.
  - destruct (IH q c' eq_refl) as (i & d & Hi & Hc & Hmin & Hfirst).
    destruct (Qle_bool (total_cost d0) c') eqn:Hle; inversion Hsel; subst.
    + apply Qle_bool_iff in Hle.
      exists 0%nat, d0. split; [reflexivity|]. split; [reflexivity|]. split.
      * intros [|j] q' e Hj; cbn in Hj.
        -- inversion Hj; subst. apply Qle_refl.
        -- eapply Qle_trans; [exact Hle|]. eapply Hmin; exact Hj.
      * intros j q' e Hlt. lia.
    + assert (Hlt : (total_cost d < total_cost d0)%Q).
      { apply Qnot_le_lt. intros H. apply Qle_bool_iff in H. congruence. }
      exists (S i), d. split; [exact Hi|]. split; [reflexivity|]. split.
      * intros [|j] q' e Hj; cbn in Hj.
        -- inversion Hj; subst. apply Qlt_le_weak. exact Hlt.
        -- eapply Hmin; exact Hj.
      * intros [|j] q' e Hji Hj; cbn in Hj.
        -- inversion Hj; subst. exact Hlt.
        -- eapply Hfirst; [|exact Hj]. lia.
  - inversion Hsel; subst.
    assert (Hnil : rest = []).
    { destruct rest as [|[q e] rest']; [reflexivity|]. cbn in Hrest.
      destruct (service_cheapest rest') as [[q' c']|];
        [destruct (Qle_bool (total_cost e) c')|]; discriminate. }
    subst rest. exists 0%nat, d0. split; [reflexivity|]. split; [reflexivity|]. split.
    + intros [|j] q' e Hj; cbn in Hj; [|discriminate].
      inversion Hj; subst. apply Qle_refl.
    + intros j q' e Hlt. lia.
Qed.

Example service_cheapest_of_sample :
  fst <$> service_cheapest sample_results = Some "gcp".
Proof. reflexivity. Qed.

Example service_cheapest_of_tie :
  fst <$> service_cheapest (results tied_payload) = Some "aws".
Proof. reflexivity. Qed.

Example winner_cards_of_sample :
  map (fun c => (card_title c, isWinner c))
      (cards (render_results (with_result sample_payload) sample_payload)) =
  [("AWS", false); ("GCP", true); ("AZURE", false)].
Proof. reflexivity. Qed.

(** C2: for every payload as the service sends it (distinct keys, summary
    naming the provider the service selects), the provider named as
    cheapest sits at some position [i] of the result map, its total cost is
    minimal over the map and strictly below every total before position
    [i] (ties go to the first key), the card at position [i] and no other
    card is marked as winner, and the summary shows that provider's
    upper-case label. *)
Theorem winner_is_first_cheapest s cd :
  well_formed cd ->
  exists i p d,
    Object_entries (results cd) !! i = Some (p, d) /\
    cheapest_provider (comparison cd) = p /\
    (forall j q e, Object_entries (results cd) !! j = Some (q, e) ->
       (total_cost d <= total_cost e)%Q /\
       ((j < i)%nat -> (total_cost d < total_cost e)%Q)) /\
    length (cards (render_results s cd)) = length (Object_entries (results cd)) /\
    (forall j c, cards (render_results s cd) !! j = Some c ->
       (isWinner c = true <-> j = i)) /\
    cheapest_label (render_results s cd) = toUpperCase p.
Proof.
  intros [Hnd Hsel].
  destruct (service_cheapest (results cd)) as [[p c]|] eqn:Hsc; [|discriminate].
  cbn in Hsel. inversion Hsel as [Hp].
  destruct (service_cheapest_spec _ _ _ Hsc) as (i & d & Hi & Hc & Hmin & Hfirst).
  subst c. exists i, p, d. unfold Object_entries.
  split; [exact Hi|]. split; [symmetry; exact Hp|]. split; [|split; [|split]].
  - intros j q e Hj. split; [eapply Hmin; exact Hj|].
    intros Hlt. eapply Hfirst; eassumption.
  - cbn. apply map_index_from_length.
  - intros j c Hj. cbn in Hj. unfold map_index, Object_entries in Hj.
    rewrite map_index_from_lookup in Hj.
    apply fmap_Some in Hj as ([q e] & Hq & ->). cbn. rewrite <- Hp.
    assert (Hki : Object_keys (results cd) !! i = Some p).
    { unfold Object_keys. change (map ?f ?l) with (f <$> l).
      rewrite list_lookup_fmap, Hi. reflexivity. }
    assert (Hkj : Object_keys (results cd) !! j = Some q).
    { unfold Object_keys. change (map ?f ?l) with (f <$> l).
      rewrite list_lookup_fmap, Hq. reflexivity. }
    rewrite String.eqb_eq. split.
    + intros ->. eapply NoDup_lookup; eassumption.
    + intros ->. congruence.
  - cbn. rewrite <- Hp. reflexivity.
Qed.

Lemma winner_is_first_cheapest_witness :
  exists i p d,
    Object_entries (results tied_payload) !! i = Some (p, d) /\
    cheapest_provider (comparison tied_payload) = p /\
    (forall j q e, Object_entries (results tied_payload) !! j = Some (q, e) ->
       (total_cost d <= total_cost e)%Q /\
       ((j < i)%nat -> (total_cost d < total_cost e)%Q)) /\
    length (cards (render_results (with_result tied_payload) tied_payload)) =
      length (Object_entries (results tied_payload)) /\
    (forall j c,
       cards (render_results (with_result tied_payload) tied_payload) !! j = Some c ->
       (isWinner c = true <-> j = i)) /\
    cheapest_label (render_results (with_result tied_payload) tied_payload) =
      toUpperCase p.
Proof.
  apply (winner_is_first_cheapest (with_result tied_payload) tied_payload).
  split.
  - apply (bool_decide_unpack _). reflexivity.
  - reflexivity.
Defined.

(** ** Editing the form *)

Lemma Object_get_set_eq {V} (o : JsObject V) k v :
  Object_get (Object_set o k v) k = Some v.
Proof.
  induction o as [|[k' v'] o IH]; cbn.
  - rewrite String.eqb_refl. reflexivity.
  - destruct (String.eqb k' k) eqn:E; cbn; rewrite E; [reflexivity|exact IH].
Qed.

Lemma Object_get_set_ne {V} (o : JsObject V) k v k' :
  k <> k' -> Object_get (Object_set o k v) k' = Object_get o k'.
Proof.
  intros Hne. induction o as [|[k0 v0] o IH]; cbn.
  - apply String.eqb_neq in Hne. rewrite Hne. reflexivity.
  - destruct (String.eqb k0 k) eqn:E; cbn.
    + apply String.eqb_eq in E. subst k0.
      apply String.eqb_neq in Hne. rewrite Hne. reflexivity.
    + rewrite IH. reflexivity.
Qed.

Lemma Object_keys_set {V} (o : JsObject V) k v :
  Object_keys (Object_set o k v) =
  if bool_decide (k ∈ Object_keys o) then Object_keys o
  else (Object_keys o ++ [k])%list.
Proof.
  unfold Object_keys. induction o as [|[k' v'] o IH]; cbn.
  - rewrite bool_decide_eq_false_2; [reflexivity|apply not_elem_of_nil].
  - destruct (String.eqb k' k) eqn:E; cbn.
    + apply String.eqb_eq in E. subst k'.
      rewrite bool_decide_eq_true_2; [reflexivity|apply list_elem_of_here].
    + rewrite IH. apply String.eqb_neq in E.
      destruct (bool_decide (k ∈ map fst o)) eqn:Hin.
      * apply bool_decide_eq_true_1 in Hin.
        rewrite bool_decide_eq_true_2; [reflexivity|].
        apply list_elem_of_further. exact Hin.
      * apply bool_decide_eq_false_1 in Hin.
        rewrite bool_decide_eq_false_2; [reflexivity|].
        intros H. apply elem_of_cons in H as [H|H]; [congruence|contradiction].
Qed.

Lemma Object_set_set {V} (o : JsObject V) k v1 v2 :
  Object_set (Object_set o k v1) k v2 = Object_set o k v2.
Proof.
  induction o as [|[k' v'] o IH]; cbn.
  - rewrite String.eqb_refl. reflexivity.
  - destruct (String.eqb k' k) eqn:E; cbn; rewrite E; [reflexivity|].
    rewrite IH. reflexivity.
Qed.

Lemma field_set_eq fd f v : field (Object_set fd f v) f = v.
Proof. unfold field. rewrite Object_get_set_eq. reflexivity. Qed.

Lemma field_set_ne fd f v f' : f <> f' -> field (Object_set fd f v) f' = field fd f'.
Proof. intros H. unfold field. rewrite Object_get_set_ne by exact H. reflexivity. Qed.

Lemma run_handleInputChange {J} (net : Url -> Settled (Response J)) name value s :
  run net (handleInputChange name value) s =
  {| final := apply_effect (setFormData (fun prev => Object_set prev name value)) s;
     trace := [Performed (setFormData (fun prev => Object_set prev name value))];
     completion := Fulfilled tt |}.
Proof. reflexivity. Qed.

(** X1: an edit of the input called [name] stores the new value under
    [name], leaves every other form field as it was, touches no other state
    cell and makes no request. *)
Theorem handleInputChange_edits_one_field {J} (net : Url -> Settled (Response J))
    name value s :
  let out := run net (handleInputChange name value) s in
  Object_get (formData (final out)) name = Some value /\
  (forall k, k <> name ->
     Object_get (formData (final out)) k = Object_get (formData s) k) /\
  comparisonData (final out) = comparisonData s /\
  loading (final out) = loading s /\
  error (final out) = error s /\
  instanceTypes (final out) = instanceTypes s /\
  requests (trace out) = [].
Proof.
  cbn zeta. rewrite run_handleInputChange. cbn.
  split; [apply Object_get_set_eq|]. split; [|repeat split; reflexivity].
  intros k Hk. apply Object_get_set_ne. congruence.
Qed.

(** X2: an edit under a name that is not made of digits only never drops,
    duplicates or reorders form fields: the keys stay as they are when
    [name] is already a field, a new [name] is added last, and distinct
    keys stay distinct. *)
Theorem handleInputChange_keeps_form_shape {J} (net : Url -> Settled (Response J))
    name value s :
  digits_only name = false ->
  let out := run net (handleInputChange name value) s in
  Object_keys (formData (final out)) =
    (if bool_decide (name ∈ Object_keys (formData s))
     then Object_keys (formData s)
     else (Object_keys (formData s) ++ [name])%list) /\
  (NoDup (Object_keys (formData s)) -> NoDup (Object_keys (formData (final out)))).
Proof.
  intros _. cbn zeta. rewrite run_handleInputChange. cbn [final apply_effect formData].
  rewrite Object_keys_set.
  split; [reflexivity|]. intros Hnd.
  destruct (bool_decide (name ∈ Object_keys (formData s))) eqn:Hin; [exact Hnd|].
  apply bool_decide_eq_false_1 in Hin.
  apply NoDup_app. split; [exact Hnd|]. split.
  - intros x Hx Hx'. apply list_elem_of_singleton in Hx'. subst x. contradiction.
  - apply NoDup_singleton.
Qed.

Lemma handleInputChange_keeps_form_shape_witness :
  let out := run (fun _ => Fulfilled response_503)
                 (handleInputChange "hours" "48") initialState in
  Object_keys (formData (final out)) =
    (if bool_decide ("hours" ∈ Object_keys (formData initialState))
     then Object_keys (formData initialState)
     else (Object_keys (formData initialState) ++ ["hours"])%list) /\
  (NoDup (Object_keys (formData initialState)) ->
   NoDup (Object_keys (formData (final out)))).
Proof.
  apply (handleInputChange_keeps_form_shape (fun _ => Fulfilled response_503)
           "hours" "48" initialState).
  reflexivity.
Defined.

(** X3: of two edits of the same input the last one wins, and the form is
    the same as if only the last edit had been made. *)
Theorem last_edit_wins {J} (net : Url -> Settled (Response J)) name v1 v2 s :
  final (run net (handleInputChange name v2)
           (final (run net (handleInputChange name v1) s))) =
  final (run net (handleInputChange name v2) s).
Proof.
  rewrite !run_handleInputChange. cbn. rewrite Object_set_set. reflexivity.
Qed.

(** Each query parameter is read from its form field. *)
Lemma query_param_field fd t f :
  (t, f) ∈ query_fields -> Object_get (URLSearchParams fd) t = Some (field fd f).
Proof.
  intros H. unfold query_fields in H.
  repeat (apply elem_of_cons in H as [H|H]; [inversion H; subst; reflexivity|]).
  inversion H.
Qed.

(** No form field feeds two query parameters. *)
Lemma query_fields_injective t f t' f' :
  (t, f) ∈ query_fields -> (t', f') ∈ query_fields -> f = f' -> t = t'.
Proof.
  intros H H'. unfold query_fields in H, H'.
  repeat (apply elem_of_cons in H as [H|H];
          [inversion H; subst;
           repeat (apply elem_of_cons in H' as [H'|H'];
                   [inversion H'; subst; intros E; first [reflexivity|discriminate E]|]);
           inversion H'|]).
  inversion H.
Qed.

(** ** What a submit sends *)

Lemma handleSubmit_trace net fd s :
  let out := run net (handleSubmit fd) s in
  requests (trace out) = [compare_url (URLSearchParams fd)] /\
  logged (trace out) = [] /\
  decoded (trace out) =
    match net (compare_url (URLSearchParams fd)) with
    | Fulfilled r => if ok r then [json r] else []
    | Rejected _ => []
    end.
Proof.
  unfold handleSubmit. cbn.
  destruct (net _) as [[[] st [[cd|]|e]]|e]; cbn; repeat split; reflexivity.
Qed.

(** X4: a run of [handleSubmit] makes exactly one request, to the compare
    endpoint with the parameters of the form it captured, whatever the
    outcome (no retry); it reads the body only of a success response,
    writes nothing to the console, and leaves the form and the catalog
    untouched. *)
Theorem handleSubmit_makes_one_request net fd s :
  let out := run net (handleSubmit fd) s in
  requests (trace out) = [compare_url (URLSearchParams fd)] /\
  logged (trace out) = [] /\
  decoded (trace out) =
    match net (compare_url (URLSearchParams fd)) with
    | Fulfilled r => if ok r then [json r] else []
    | Rejected _ => []
    end /\
  formData (final out) = formData s /\
  instanceTypes (final out) = instanceTypes s.
Proof.
  cbn zeta. destruct (handleSubmit_trace net fd s) as (Hr & Hl & Hd).
  cbn zeta in Hr, Hl, Hd. rewrite Hr, Hl, Hd, handleSubmit_final.
  repeat split; destruct (fetch_case _); reflexivity.
Qed.

(** X5: after an edit of a form field, the next submit sends the new value
    in the query parameter that is read from that field, and every other
    parameter as it would have been sent before the edit. *)
Theorem edit_reaches_next_request net s t f v :
  (t, f) ∈ query_fields ->
  let s1 := final (run net (handleInputChange f v) s) in
  exists q,
    requests (trace (run net (handleSubmit (formData s1)) s1)) = [compare_url q] /\
    Object_get q t = Some v /\
    forall t' f', (t', f') ∈ query_fields -> t' <> t ->
      Object_get q t' = Object_get (URLSearchParams (formData s)) t'.
Proof.
  intros Hin s1. exists (URLSearchParams (formData s1)).
  destruct (handleSubmit_trace net (formData s1) s1) as (Hr & _ & _).
  split; [exact Hr|]. subst s1. rewrite run_handleInputChange.
  cbn [final apply_effect formData]. split.
  - rewrite (query_param_field _ t f Hin), field_set_eq. reflexivity.
  - intros t' f' Hin' Hne.
    rewrite (query_param_field _ t' f' Hin'), (query_param_field _ t' f' Hin').
    rewrite field_set_ne; [reflexivity|].
    intros E. apply Hne. symmetry. eapply query_fields_injective; eassumption.
Qed.

Lemma edit_reaches_next_request_witness :
  let net := fun _ => Fulfilled response_503 in
  let s1 := final (run net (handleInputChange "hours" "48") initialState) in
  exists q,
    requests (trace (run net (handleSubmit (formData s1)) s1)) = [compare_url q] /\
    Object_get q "hours" = Some "48" /\
    forall t' f', (t', f') ∈ query_fields -> t' <> "hours" ->
      Object_get q t' = Object_get (URLSearchParams (formData initialState)) t'.
Proof.
  apply (edit_reaches_next_request (fun _ => Fulfilled response_503)
           initialState "hours" "hours" "48").
  unfold query_fields. do 3 apply list_elem_of_further. apply list_elem_of_here.
Defined.

(** ** What the catalog loader sends, logs and publishes *)

Lemma requests_app {J} (t1 t2 : list (Event J)) :
  requests (t1 ++ t2) = (requests t1 ++ requests t2)%list.
Proof. apply omap_app. Qed.

Lemma logged_app {J} (t1 t2 : list (Event J)) :
  logged (t1 ++ t2) = (logged t1 ++ logged t2)%list.
Proof. apply omap_app. Qed.

Lemma run_retrieve_into_trace net p types s :
  let out := run net (retrieve_into p types) s in
  requests (trace out) = [instances_url p] /\ logged (trace out) = [].
Proof.
  unfold retrieve_into, fetch, response_json. unfold_monad. cbn.
  destruct (net (instances_url p)) as [[[] st [c|e]]|e]; cbn; auto.
Qed.

Lemma first_exception_clean net ps :
  first_exception net ps = None <-> settles_cleanly net ps = true.
Proof.
  induction ps as [|p ps IH]; cbn; [tauto|].
  unfold raises. destruct (net (instances_url p)) as [[[] st [c|e]]|e]; cbn;
    try exact IH; split; discriminate.
Qed.

(** The loop stops at the first exception, which becomes its completion;
    each provider up to there is requested once, and nothing is logged. *)
Lemma run_loop_requests net ps : forall types s,
  let out := run net (for_of ps retrieve_into types) s in
  (requests (trace out) `prefix_of` map instances_url ps) /\
  (first_exception net ps = None -> requests (trace out) = map instances_url ps) /\
  logged (trace out) = [] /\
  completion out =
    match first_exception net ps with
    | Some e => Rejected e
    | None => Fulfilled (collected net ps types)
    end.
Proof.
  induction ps as [|p ps IH]; intros types s out; subst out.
  - cbn. split; [apply prefix_nil|]. repeat split; reflexivity.
  - cbn [for_of]. rewrite run_bind.
    destruct (run_retrieve_into net p types s) as (Hf & _ & Hc).
    destruct (run_retrieve_into_trace net p types s) as (Hr & Hl).
    cbn zeta in Hf, Hc, Hr, Hl.
    destruct (run net (retrieve_into p types) s) as [f t c].
    cbn [final trace completion] in Hf, Hc, Hr, Hl |- *. subst f c.
    rewrite collected_cons. unfold retrieved. cbn [first_exception map].
    assert (Hgo : forall types',
      let out := run net (for_of ps retrieve_into types') s in
      (requests (t ++ trace out) `prefix_of` instances_url p :: map instances_url ps) /\
      (first_exception net ps = None ->
         requests (t ++ trace out) = instances_url p :: map instances_url ps) /\
      logged (t ++ trace out) = [] /\
      completion out =
        match first_exception net ps with
        | Some e => Rejected e
        | None => Fulfilled (collected net ps types')
        end).
    { intros types'. destruct (IH types' s) as (IHp & IHe & IHl & IHc).
      cbn zeta in IHp, IHe, IHl, IHc |- *.
      rewrite requests_app, logged_app, Hr, Hl, IHl.
      split; [apply (prefix_app [_]); exact IHp|].
      split; [intros Hn; rewrite (IHe Hn); reflexivity|].
      split; [reflexivity|exact IHc]. }
    assert (Hstop : requests t `prefix_of` instances_url p :: map instances_url ps).
    { rewrite Hr. apply (prefix_app_r [_] [_]). reflexivity. }
    destruct (net (instances_url p)) as [[[] st [c|e]]|e]; cbn.
    + apply Hgo.
    + split; [exact Hstop|]. split; [discriminate|]. split; [exact Hl|reflexivity].
    + apply Hgo.
    + apply Hgo.
    + split; [exact Hstop|]. split; [discriminate|]. split; [exact Hl|reflexivity].
Qed.

(** The requests and the console lines of a whole run of the loader. *)
Lemma run_fetchInstanceTypes_trace net s :
  let out := run net fetchInstanceTypes s in
  (requests (trace out) `prefix_of` map instances_url providers) /\
  (first_exception net providers = None ->
     requests (trace out) = map instances_url providers) /\
  logged (trace out) =
    match first_exception net providers with
    | Some e => [("Failed to fetch instance types:", e)]
    | None => []
    end.
Proof.
  unfold fetchInstanceTypes. unfold_monad. cbn zeta.
  rewrite run_try_catch, run_bind.
  destruct (run_loop_requests net providers ∅ s) as (Hp & He & Hl & Hc).
  cbn zeta in Hp, He, Hl, Hc.
  destruct (run net (for_of providers retrieve_into ∅) s) as [f t c].
  cbn [final trace completion] in Hp, He, Hl, Hc |- *. subst c.
  destruct (first_exception net providers) as [e|];
    cbn -[collected providers requests logged];
    rewrite requests_app, logged_app, Hl; cbn -[providers]; rewrite app_nil_r.
  - split; [exact Hp|]. split; [discriminate|reflexivity].
  - split; [exact Hp|]. split; [exact He|reflexivity].
Qed.

Lemma providers_urls_distinct : NoDup (map instances_url providers).
Proof.
  cbn. repeat (apply NoDup_cons; split;
    [intros H; repeat (apply elem_of_cons in H as [H|H]; [discriminate H|]);
     inversion H|]).
  apply NoDup_nil_2.
Qed.

Lemma prefix_NoDup {A} (l1 l2 : list A) : l1 `prefix_of` l2 -> NoDup l2 -> NoDup l1.
Proof. intros [k ->] H. apply NoDup_app in H. tauto. Qed.

Lemma prefix_elem_of {A} (l1 l2 : list A) x : l1 `prefix_of` l2 -> x ∈ l1 -> x ∈ l2.
Proof. intros [k ->] H. apply elem_of_app. left. exact H. Qed.

(** The loader changes at most the catalog. *)
Lemma fetchInstanceTypes_frame net s :
  let out := run net fetchInstanceTypes s in
  formData (final out) = formData s /\
  comparisonData (final out) = comparisonData s /\
  loading (final out) = loading s /\
  error (final out) = error s.
Proof.
  cbn zeta. destruct (run_fetchInstanceTypes net s) as [_ H]. cbn zeta in H.
  destruct (settles_cleanly net providers).
  - destruct H as [_ ->]. repeat split; reflexivity.
  - destruct H as [_ ->]. repeat split; reflexivity.
Qed.

Lemma requests_retrieval_trace net p :
  requests (retrieval_trace net p) = [instances_url p].
Proof.
  unfold retrieval_trace.
  destruct (net (instances_url p)) as [[[] st [c|e]]|e]; reflexivity.
Qed.

Lemma requests_loop_trace net ps :
  requests (loop_trace net ps) = map instances_url (attempted net ps).
Proof.
  induction ps as [|p ps IH]; [reflexivity|].
  cbn [loop_trace attempted map]. rewrite requests_app, requests_retrieval_trace.
  destruct (raises net p); [reflexivity|]. cbn. rewrite IH. reflexivity.
Qed.

(** A provider is attempted exactly when no provider before it raised. *)
Lemma attempted_lookup net ps : forall i p,
  NoDup ps -> ps !! i = Some p ->
  (p ∈ attempted net ps <->
   forall j q, (j < i)%nat -> ps !! j = Some q -> raises net q = false).
Proof.
  induction ps as [|q0 ps IH]; intros i p Hnd Hi; [discriminate|].
  apply NoDup_cons in Hnd as [Hq0 Hnd]. cbn [attempted].
  destruct i as [|i]; cbn in Hi.
  - inversion Hi; subst. split; [intros _ j q Hj; lia|].
    intros _. apply list_elem_of_here.
  - assert (Hne : p <> q0).
    { intros ->. apply Hq0. eapply list_elem_of_lookup_2. exact Hi. }
    rewrite elem_of_cons. split.
    + intros [Heq|Hin]; [contradiction|].
      destruct (raises net q0) eqn:Hr; [inversion Hin|].
      intros [|j] q Hj Hq; cbn in Hq.
      * inversion Hq; subst. exact Hr.
      * eapply (IH i p Hnd Hi); [exact Hin| |exact Hq]. lia.
    + intros Hall. right.
      rewrite (Hall 0%nat q0) by (try lia; reflexivity).
      apply (IH i p Hnd Hi). intros j q Hj Hq. apply (Hall (S j) q); [lia|exact Hq].
Qed.

(** X6: a run of the catalog loader requests the instance lists of aws,
    gcp and azure in this order, each at most once and never anything else,
    stopping at the first retrieval that raises: a provider is requested
    exactly when no provider before it raised.  The run leaves the form,
    the comparison data, the loading flag and the error as they were. *)
Theorem loader_requests_each_provider_once net s :
  let out := run net fetchInstanceTypes s in
  (requests (trace out) `prefix_of` map instances_url providers) /\
  NoDup (requests (trace out)) /\
  (forall q, compare_url q ∉ requests (trace out)) /\
  (first_exception net providers = None ->
     requests (trace out) = map instances_url providers) /\
  formData (final out) = formData s /\
  comparisonData (final out) = comparisonData s /\
  loading (final out) = loading s /\
  error (final out) = error s /\
  requests (trace out) = map instances_url (attempted net providers) /\
  (forall i p, providers !! i = Some p ->
     (instances_url p ∈ requests (trace out) <->
      forall j q, (j < i)%nat -> providers !! j = Some q -> raises net q = false)).
Proof.
  cbn zeta. destruct (run_fetchInstanceTypes_trace net s) as (Hp & He & _).
  cbn zeta in Hp, He.
  assert (Hreq : requests (trace (run net fetchInstanceTypes s)) =
                 map instances_url (attempted net providers)).
  { rewrite run_fetchInstanceTypes_full, requests_app, requests_loop_trace.
    unfold closing_event.
    destruct (first_exception net providers); cbn -[attempted providers];
      apply app_nil_r. }
  split; [exact Hp|]. split; [|split; [|split; [exact He|]]].
  - eapply prefix_NoDup; [exact Hp|apply providers_urls_distinct].
  - intros q Hq. apply (prefix_elem_of _ _ _ Hp) in Hq. cbn in Hq.
    repeat (apply elem_of_cons in Hq as [Hq|Hq]; [discriminate Hq|]).
    inversion Hq.
  - destruct (fetchInstanceTypes_frame net s) as (F1 & F2 & F3 & F4).
    cbn zeta in F1, F2, F3, F4.
    do 4 (split; [assumption|]). split; [exact Hreq|].
    intros i p Hi. rewrite Hreq.
    assert (Hnd : NoDup providers).
    { apply (bool_decide_unpack _). reflexivity. }
    rewrite <- (attempted_lookup net providers i p Hnd Hi).
    change (map instances_url ?l) with (instances_url <$> l).
    rewrite list_elem_of_fmap. split.
    + intros (x & Hx & Hin). inversion Hx; subst. exact Hin.
    + intros Hin. exists p. split; [reflexivity|exact Hin].
Qed.

(** X7: the loader writes to the console exactly when a retrieval raises:
    one line, labelled "Failed to fetch instance types:", carrying the
    exception of the first provider whose request was rejected or whose
    body did not decode; the state is then left as it was and nothing is
    published.  A run without exception logs nothing and publishes. *)
Theorem loader_logs_first_exception net s :
  let out := run net fetchInstanceTypes s in
  match first_exception net providers with
  | Some e =>
      logged (trace out) = [("Failed to fetch instance types:", e)] /\
      final out = s /\
      MPublished ∉ protocol (trace out)
  | None =>
      logged (trace out) = [] /\
      MPublished ∈ protocol (trace out) /\
      final out = apply_effect (setInstanceTypes (collected net providers ∅)) s
  end.
Proof.
  cbn zeta. destruct (run_fetchInstanceTypes_trace net s) as (_ & _ & Hl).
  destruct (run_fetchInstanceTypes net s) as [_ H]. cbn zeta in Hl, H.
  pose proof (first_exception_clean net providers) as Hc.
  destruct (first_exception net providers) as [e|].
  - destruct (settles_cleanly net providers).
    + destruct Hc as [_ Hc]. specialize (Hc eq_refl). discriminate.
    + destruct H as [Hn Hf]. auto.
  - destruct Hc as [Hc _]. rewrite (Hc eq_refl) in H. destruct H as [Ht Hf].
    split; [exact Hl|]. split; [|exact Hf].
    rewrite Ht. unfold sequential_schedule. apply elem_of_app. right.
    apply list_elem_of_here.
Qed.

(** X8: a run of the loader without exception replaces the catalog as a
    whole: afterwards a provider of the fixed list has exactly what its
    retrieval yielded, and no other key is present, whatever the catalog
    held before. *)
Theorem publication_replaces_catalog net s p :
  settles_cleanly net providers = true ->
  instanceTypes (final (run net fetchInstanceTypes s)) !! p =
    if decide (p ∈ providers) then retrieved net p else None.
Proof.
  intros Hclean. destruct (run_fetchInstanceTypes net s) as [_ H]. cbn zeta in H.
  rewrite Hclean in H. destruct H as [_ ->]. cbn [apply_effect instanceTypes].
  rewrite collected_lookup. destruct (decide (p ∈ providers)).
  - destruct (retrieved net p); [reflexivity|apply lookup_empty].
  - apply lookup_empty.
Qed.

Lemma publication_replaces_catalog_witness :
  instanceTypes
    (final (run gcp_status_500 fetchInstanceTypes
              (apply_effect (setInstanceTypes {["oci" := sample_catalog "oci"]})
                            initialState))) !! "oci" =
    if decide ("oci" ∈ providers) then retrieved gcp_status_500 "oci" else None.
Proof.
  apply (publication_replaces_catalog gcp_status_500
           (apply_effect (setInstanceTypes {["oci" := sample_catalog "oci"]}) initialState)
           "oci").
  reflexivity.
Defined.

(** ** Footprints of the handlers *)

Section ShapeLemmas.
Context {J : Type}.

Lemma performs_weaken {A} (P P' : Effect -> Prop) (Q Q' : A -> Prop) (m : Async J A) :
  (forall eff, P eff -> P' eff) -> (forall a, Q a -> Q' a) ->
  performs P Q m -> performs P' Q' m.
Proof. intros HP HQ Hm. induction Hm; constructor; auto. Qed.

Lemma performs_bind {A B} (P : Effect -> Prop) (Q : A -> Prop) (R : B -> Prop)
    (m : Async J A) (f : A -> Async J B) :
  performs P Q m -> (forall a, Q a -> performs P R (f a)) -> performs P R (bind m f).
Proof. intros Hm Hf. induction Hm; cbn; try constructor; auto. Qed.

Lemma performs_try_catch {A} (P : Effect -> Prop) (Q : A -> Prop)
    (m : Async J A) (h : JsError -> Async J A) :
  performs P Q m -> (forall e, performs P Q (h e)) -> performs P Q (try_catch m h).
Proof. intros Hm Hh. induction Hm; cbn; try constructor; auto. Qed.

(** A loop keeps what its body keeps. *)
Lemma performs_for_of {A S} (P : Effect -> Prop) (Q : S -> Prop)
    (xs : list A) (body : A -> S -> Async J S) :
  (forall x acc, x ∈ xs -> Q acc -> performs P Q (body x acc)) ->
  forall acc, Q acc -> performs P Q (for_of xs body acc).
Proof.
  induction xs as [|x xs IH]; intros Hb acc Hacc; cbn.
  - constructor. exact Hacc.
  - eapply performs_bind.
    + apply Hb; [apply list_elem_of_here|exact Hacc].
    + intros a Ha. apply IH; [|exact Ha].
      intros y b Hy Hq. apply Hb; [apply list_elem_of_further; exact Hy|exact Hq].
Qed.

(** A property of the state that every allowed effect keeps is kept up to
    the next suspension, and what is parked there has the same footprint. *)
Lemma advance_performs {A} (P : Effect -> Prop) (Q : A -> Prop)
    (I : AppState -> Prop) (m : Async J A) s s' st :
  (forall eff x, P eff -> I x -> I (apply_effect eff x)) ->
  performs P Q m -> I s -> advance m s = (s', st) ->
  I s' /\ forall t, t ∈ pending st -> forall o, performs P Q (settle t o).
Proof.
  intros HI Hm. revert s.
  induction Hm as [a Ha|e|eff k Hp Hk IH|u k Hk IH|r k Hk IH];
    intros s Hs Hadv; cbn in Hadv.
  - inversion Hadv; subst. split; [exact Hs|]. intros t Ht. inversion Ht.
  - inversion Hadv; subst. split; [exact Hs|]. intros t Ht. inversion Ht.
  - eapply IH; [|exact Hadv]. apply HI; assumption.
  - inversion Hadv; subst. split; [exact Hs|]. intros t Ht o.
    apply list_elem_of_singleton in Ht. subst t. apply Hk.
  - inversion Hadv; subst. split; [exact Hs|]. intros t Ht o.
    apply list_elem_of_singleton in Ht. subst t. apply Hk.
Qed.

Lemma advance_ends_sync {A} (m : Async J A) s :
  ends_sync m -> pending (snd (advance m s)) = [].
Proof. intros Hm. revert s. induction Hm; intros s; cbn; auto. Qed.

(** A handler that acts at its end either finishes, or is parked again
    without having changed the state. *)
Lemma advance_acts_at_end {A} (m : Async J A) s s' st :
  acts_at_end m -> advance m s = (s', st) ->
  pending st = [] \/
  (s' = s /\ forall t, t ∈ pending st -> forall o, acts_at_end (settle t o)).
Proof.
  intros Hm Hadv. destruct Hm as [m Hm|u k Hk|r k Hk].
  - left. pose proof (advance_ends_sync m s Hm) as H. rewrite Hadv in H. exact H.
  - cbn in Hadv. inversion Hadv; subst. right. split; [reflexivity|].
    intros t Ht o. apply list_elem_of_singleton in Ht. subst t. apply Hk.
  - cbn in Hadv. inversion Hadv; subst. right. split; [reflexivity|].
    intros t Ht o. apply list_elem_of_singleton in Ht. subst t. apply Hk.
Qed.

(** Each suspension uses up one of the remaining [await]s. *)
Lemma advance_awaits_at_most {A} n (m : Async J A) s s' st :
  awaits_at_most n m -> advance m s = (s', st) ->
  forall t, t ∈ pending st ->
  exists n', n = S n' /\ forall o, awaits_at_most n' (settle t o).
Proof.
  intros Hm. revert s.
  induction Hm as [n a|n e|n eff k Hk IH|n u k Hk IH|n r k Hk IH];
    intros s Hadv t Ht; cbn in Hadv.
  - inversion Hadv; subst. inversion Ht.
  - inversion Hadv; subst. inversion Ht.
  - eapply IH; eassumption.
  - inversion Hadv; subst. apply list_elem_of_singleton in Ht. subst t.
    exists n. split; [reflexivity|intros o; cbn; apply Hk].
  - inversion Hadv; subst. apply list_elem_of_singleton in Ht. subst t.
    exists n. split; [reflexivity|intros o; cbn; apply Hk].
Qed.
End ShapeLemmas.

(** The loader calls no setter but [setInstanceTypes], and only with an
    object whose keys are among [providers]. *)
Lemma fetchInstanceTypes_performs :
  performs loader_effect (fun _ => True) fetchInstanceTypes.
Proof.
  unfold fetchInstanceTypes. unfold_monad.
  apply performs_try_catch.
  - eapply performs_bind
      with (Q := fun t : gmap string ProviderCatalog =>
                   forall p, is_Some (t !! p) -> p ∈ providers).
    + apply performs_for_of.
      * intros p types Hp Htypes.
        unfold retrieve_into, fetch, response_json. unfold_monad. cbn.
        apply pf_fetch. intros [r|e]; cbn; [|constructor].
        destruct (ok r); [|constructor; exact Htypes].
        apply pf_json. intros [c|e]; cbn; constructor.
        intros q Hq. destruct (decide (p = q)) as [<-|Hne]; [exact Hp|].
        rewrite lookup_insert_ne in Hq by exact Hne. apply Htypes. exact Hq.
      * intros p Hp. rewrite lookup_empty in Hp. destruct Hp as [x Hx]. discriminate.
    + intros types Htypes. apply pf_do; [exact Htypes|constructor; exact I].
  - intros e. apply pf_do; [exact I|constructor; exact I].
Qed.

(** The shape of [handleSubmit] after its synchronous prefix. *)
Lemma handleSubmit_shape fd s :
  exists k,
    advance (handleSubmit fd) s =
      (apply_effect (setError None) (apply_effect (setLoading true) s),
       Waiting (AtFetch (compare_url (URLSearchParams fd)) k)) /\
    forall o,
      performs submit_effect (fun _ => True) (k o) /\
      acts_at_end (k o) /\
      awaits_at_most 1 (k o).
Proof.
  unfold handleSubmit. cbn. eexists. split; [reflexivity|].
  intros [[[] st js]|e]; cbn.
  - split; [|split].
    + apply pf_json. intros [data|e]; cbn; repeat constructor.
    + apply ae_json. intros [data|e]; cbn; repeat constructor.
    + apply am_json. intros [data|e]; cbn; repeat constructor.
  - split; [|split]; repeat constructor.
  - split; [|split]; repeat constructor.
Qed.

Lemma has_fields_set fd name value :
  has_fields fd -> has_fields (Object_set fd name value).
Proof.
  intros H t f Hin. destruct (decide (name = f)) as [->|Hne].
  - rewrite Object_get_set_eq. eexists; reflexivity.
  - rewrite Object_get_set_ne by exact Hne. eapply H. exact Hin.
Qed.

Lemma has_fields_initial : has_fields (formData initialState).
Proof.
  intros t f H. unfold query_fields in H.
  repeat (apply elem_of_cons in H as [H|H];
          [inversion H; subst; eexists; reflexivity|]).
  inversion H.
Qed.

Lemma loader_effect_state_ok eff s :
  loader_effect eff -> state_ok s -> state_ok (apply_effect eff s).
Proof.
  intros He (Hf & Hk & Hl). destruct eff; cbn in He; try contradiction.
  - split; [exact Hf|]. split; [exact He|exact Hl].
  - split; [exact Hf|]. split; [exact Hk|exact Hl].
Qed.

Lemma submit_effect_frame eff s :
  submit_effect eff ->
  formData (apply_effect eff s) = formData s /\
  instanceTypes (apply_effect eff s) = instanceTypes s.
Proof. destruct eff; cbn; intros H; try contradiction; split; reflexivity. Qed.

(** ** Invariants of the running component *)

Lemma mount_shape : system_shape mount.
Proof.
  unfold mount.
  destruct (advance fetchInstanceTypes initialState) as [s st] eqn:Hadv.
  assert (H0 : state_ok initialState).
  { split; [apply has_fields_initial|]. split.
    - intros p Hp. cbn in Hp. rewrite lookup_empty in Hp.
      destruct Hp as [x Hx]. discriminate.
    - discriminate. }
  destruct (advance_performs _ _ state_ok _ _ _ _ loader_effect_state_ok
              fetchInstanceTypes_performs H0 Hadv) as [Hs Ht].
  split; [|split]; cbn.
  - intros t H. inversion H.
  - exact Ht.
  - exact Hs.
Qed.

Lemma step_shape sys l sys' :
  system_invariant sys -> system_shape sys -> step sys l sys' -> system_shape sys'.
Proof.
  intros (Hlen & Hidle & _) (Hsub & Hload & Hok) Hstep.
  destruct Hstep as [sys name value|sys Hen|sys before t after o Hs|sys before t after o Hs].
  - (* the form is edited *)
    unfold on_input, handleInputChange. cbn.
    split; [exact Hsub|]. split; [exact Hload|].
    destruct Hok as (Hf & Hk & Hl). split; [|split; [exact Hk|exact Hl]].
    cbn. apply has_fields_set. exact Hf.
  - (* submit *)
    cbn in Hen. rewrite Hen in Hlen. apply nil_length_inv in Hlen.
    unfold on_submit.
    destruct (handleSubmit_shape (formData (app sys)) (app sys)) as (k & Hadv & Hk).
    rewrite Hadv, Hlen. cbn. split; [|split]; cbn.
    + intros t Ht o. apply list_elem_of_singleton in Ht. subst t. cbn. apply Hk.
    + exact Hload.
    + destruct Hok as (Hf & Hkeys & _). split; [exact Hf|]. split; [exact Hkeys|reflexivity].
  - (* the parked submit handler is resumed *)
    assert (Hone : before = [] /\ after = []).
    { rewrite Hs in Hlen. rewrite length_app in Hlen. cbn in Hlen.
      destruct (loading (app sys)); [|lia].
      destruct before, after; cbn in Hlen; try lia. auto. }
    destruct Hone as (-> & ->).
    assert (Hin : t ∈ submits sys) by (rewrite Hs; apply list_elem_of_here).
    destruct (Hsub t Hin o) as (Hp & Ha & _).
    unfold on_compare_settles.
    destruct (advance (settle t o) (app sys)) as [s st] eqn:Hadv.
    assert (Hframe : formData s = formData (app sys) /\
                     instanceTypes s = instanceTypes (app sys)).
    { eapply (advance_performs submit_effect (fun _ => True)
                (fun x => formData x = formData (app sys) /\
                          instanceTypes x = instanceTypes (app sys)));
        [|exact Hp|split; reflexivity|exact Hadv].
      intros eff x He [Hx1 Hx2].
      destruct (submit_effect_frame eff x He) as [-> ->]. auto. }
    destruct Hframe as [Hfd Hit].
    destruct Hok as (Hf & Hkeys & Hl).
    destruct (advance_settles_idle _ _ _ _ (Hidle t Hin o) Hadv)
      as [[Hpend Hfalse]|(t' & Hpend & Hsame & _)].
    + rewrite Hpend. cbn. split; [|split]; cbn.
      * intros t0 H0. inversion H0.
      * exact Hload.
      * split; [rewrite Hfd; exact Hf|]. split; [rewrite Hit; exact Hkeys|].
        rewrite Hfalse. discriminate.
    + destruct (advance_acts_at_end _ _ _ _ Ha Hadv) as [Hnil|[-> Hacts]];
        [rewrite Hnil in Hpend; discriminate|].
      assert (Hperf : forall t0, t0 ∈ pending st ->
                forall o0, performs submit_effect (fun _ => True) (settle t0 o0)).
      { eapply (advance_performs submit_effect (fun _ => True) (fun _ => True));
          [auto|exact Hp|exact I|exact Hadv]. }
      destruct (Hsub t Hin o) as (_ & _ & Hbound).
      pose proof (advance_awaits_at_most _ _ _ _ _ Hbound Hadv) as Hrest.
      rewrite Hpend in *. cbn. split; [|split]; cbn.
      * intros t0 H0 o0. split; [apply Hperf; exact H0|].
        split; [apply Hacts; exact H0|].
        destruct (Hrest t0 H0) as (n' & Hn & Hn').
        inversion Hn; subst n'.
        specialize (Hn' o0). clear - Hn'.
        induction Hn'; constructor; auto.
      * exact Hload.
      * split; [exact Hf|]. split; [exact Hkeys|exact Hl].
  - (* a parked catalog retrieval is resumed *)
    assert (Hin : t ∈ loads sys).
    { rewrite Hs. apply elem_of_app. right. apply list_elem_of_here. }
    unfold on_catalog_settles.
    destruct (advance (settle t o) (app sys)) as [s st] eqn:Hadv.
    destruct (advance_performs _ _ state_ok _ _ _ _ loader_effect_state_ok
                (Hload t Hin o) Hok Hadv) as [Hs' Ht'].
    split; [|split]; cbn.
    + exact Hsub.
    + intros t0 H0. rewrite Hs in Hload.
      apply elem_of_app in H0 as [H0|H0].
      { apply Hload. apply elem_of_app. left. exact H0. }
      apply elem_of_app in H0 as [H0|H0]; [apply Ht'; exact H0|].
      apply Hload. apply elem_of_app. right. apply list_elem_of_further. exact H0.
    + exact Hs'.
Qed.

Lemma reachable_shape sys : reachable sys -> system_shape sys.
Proof.
  induction 1 as [|sys l sys' Hreach IH Hstep].
  - apply mount_shape.
  - eapply step_shape; [apply reachable_invariant; exact Hreach|exact IH|exact Hstep].
Qed.

(** X9: in every reachable state the form holds every field a query
    parameter is read from, so each parameter of a comparison request is
    the current value of its form field and never the text of a missing
    property. *)
Theorem form_always_complete sys t f :
  reachable sys ->
  (t, f) ∈ query_fields ->
  exists v,
    Object_get (formData (app sys)) f = Some v /\
    Object_get (URLSearchParams (formData (app sys))) t = Some v.
Proof.
  intros Hreach Hin.
  destruct (reachable_shape sys Hreach) as (_ & _ & Hf & _).
  destruct (Hf t f Hin) as [v Hv]. exists v. split; [exact Hv|].
  rewrite (query_param_field _ t f Hin). unfold field. rewrite Hv. reflexivity.
Qed.

Lemma form_always_complete_witness :
  exists v,
    Object_get (formData (app (on_input "hours" "48" mount))) "hours" = Some v /\
    Object_get (URLSearchParams (formData (app (on_input "hours" "48" mount)))) "hours"
      = Some v.
Proof.
  apply (form_always_complete (on_input "hours" "48" mount) "hours" "hours").
  - apply (reach_step mount (UserInput "hours" "48")); [apply reach_mount|].
    apply step_input.
  - unfold query_fields. do 3 apply list_elem_of_further. apply list_elem_of_here.
Defined.

(** X10: while a comparison request is pending no error is stored and the
    error panel is not rendered: the error of an earlier request is cleared
    at the submit and a new one is set only together with the reset of
    [loading]. *)
Theorem no_error_while_pending sys :
  reachable sys ->
  Pending sys ->
  error (app sys) = None /\ error_panel (render (app sys)) = None.
Proof.
  intros Hreach Hpend.
  destruct (reachable_shape sys Hreach) as (_ & _ & _ & _ & Herr).
  destruct (reachable_invariant sys Hreach) as (Hlen & _ & _).
  assert (Hl : loading (app sys) = true).
  { destruct (loading (app sys)); [reflexivity|].
    apply nil_length_inv in Hlen. contradiction. }
  specialize (Herr Hl). cbn. rewrite Herr. split; reflexivity.
Qed.

Lemma no_error_while_pending_witness :
  error (app (on_submit mount)) = None /\
  error_panel (render (app (on_submit mount))) = None.
Proof.
  apply (no_error_while_pending (on_submit mount)).
  - apply (reach_step mount UserSubmit); [apply reach_mount|].
    apply step_submit. reflexivity.
  - unfold Pending. cbn. discriminate.
Defined.

(** X11: in every reachable state the catalog's own keys are among aws,
    gcp and azure: no other provider name is ever stored in it. *)
Theorem catalog_holds_known_providers sys p :
  reachable sys ->
  p ∉ providers ->
  instanceTypes (app sys) !! p = None.
Proof.
  intros Hreach Hp.
  destruct (reachable_shape sys Hreach) as (_ & _ & _ & Hkeys & _).
  destruct (instanceTypes (app sys) !! p) as [c|] eqn:E; [|reflexivity].
  exfalso. apply Hp. apply Hkeys. rewrite E. eexists; reflexivity.
Qed.

Lemma catalog_holds_known_providers_witness :
  instanceTypes (app (on_submit mount)) !! "oci" = None.
Proof.
  apply (catalog_holds_known_providers (on_submit mount) "oci").
  - apply (reach_step mount UserSubmit); [apply reach_mount|].
    apply step_submit. reflexivity.
  - unfold providers. intros H.
    repeat (apply elem_of_cons in H as [H|H]; [discriminate H|]). inversion H.
Defined.

(** X12: a pending comparison request ends after at most two network
    events (the response, and for a success response the decoding of its
    body): then no handler is parked, [loading] is reset and the submit
    button is enabled again. *)
Theorem pending_ends_within_two_events sys :
  reachable sys ->
  Pending sys ->
  exists t,
    submits sys = [t] /\
    forall o1,
      let sys1 := on_compare_settles [] t [] o1 sys in
      (submits sys1 = [] /\ submit_disabled (render (app sys1)) = false) \/
      (exists t1,
         submits sys1 = [t1] /\
         forall o2,
           let sys2 := on_compare_settles [] t1 [] o2 sys1 in
           submits sys2 = [] /\ submit_disabled (render (app sys2)) = false).
Proof.
  intros Hreach Hpend.
  destruct (reachable_invariant sys Hreach) as (Hlen & Hidle & _).
  destruct (reachable_shape sys Hreach) as (Hsub & _ & _).
  destruct (submits sys) as [|t [|t' rest]] eqn:Hs.
  - unfold Pending in Hpend. rewrite Hs in Hpend. contradiction.
  - exists t. split; [reflexivity|]. intros o1 sys1. subst sys1.
    assert (Hin : t ∈ [t]) by apply list_elem_of_here.
    destruct (Hsub t Hin o1) as (_ & _ & Hbound).
    unfold on_compare_settles.
    destruct (advance (settle t o1) (app sys)) as [s1 st1] eqn:Hadv1.
    destruct (advance_settles_idle _ _ _ _ (Hidle t Hin o1) Hadv1)
      as [[Hp1 Hl1]|(t1 & Hp1 & _ & Hidle1)].
    + left. rewrite Hp1. cbn. split; [reflexivity|exact Hl1].
    + right. exists t1. rewrite Hp1. cbn. split; [reflexivity|].
      intros o2.
      assert (Hin1 : t1 ∈ pending st1) by (rewrite Hp1; apply list_elem_of_here).
      destruct (advance_awaits_at_most _ _ _ _ _ Hbound Hadv1 t1 Hin1)
        as (n' & Hn & Hzero).
      inversion Hn; subst n'.
      destruct (advance (settle t1 o2) s1) as [s2 st2] eqn:Hadv2.
      destruct (advance_settles_idle _ _ _ _ (Hidle1 o2) Hadv2)
        as [[Hp2 Hl2]|(t2 & Hp2 & _ & _)].
      * rewrite Hp2. cbn. split; [reflexivity|exact Hl2].
      * exfalso.
        assert (Hin2 : t2 ∈ pending st2) by (rewrite Hp2; apply list_elem_of_here).
        destruct (advance_awaits_at_most _ _ _ _ _ (Hzero o2) Hadv2 t2 Hin2)
          as (n'' & Hn'' & _).
        discriminate.
  - cbn in Hlen. destruct (loading (app sys)); discriminate.
Qed.

Lemma pending_ends_within_two_events_witness :
  exists t,
    submits (on_submit mount) = [t] /\
    forall o1,
      let sys1 := on_compare_settles [] t [] o1 (on_submit mount) in
      (submits sys1 = [] /\ submit_disabled (render (app sys1)) = false) \/
      (exists t1,
         submits sys1 = [t1] /\
         forall o2,
           let sys2 := on_compare_settles [] t1 [] o2 sys1 in
           submits sys2 = [] /\ submit_disabled (render (app sys2)) = false).
Proof.
  apply (pending_ends_within_two_events (on_submit mount)).
  - apply (reach_step mount UserSubmit); [apply reach_mount|].
    apply step_submit. reflexivity.
  - unfold Pending. cbn. discriminate.
Defined.

(** X13: whenever no comparison request is pending the submit button is
    enabled, and a submit then parks exactly one handler at its fetch with
    [loading] set. *)
Theorem submit_enabled_when_idle sys :
  reachable sys ->
  ~ Pending sys ->
  step sys UserSubmit (on_submit sys) /\
  length (submits (on_submit sys)) = 1%nat /\
  fetches_in_flight (on_submit sys) = 1%nat /\
  loading (app (on_submit sys)) = true.
Proof.
  intros Hreach Hidle.
  destruct (reachable_invariant sys Hreach) as (Hlen & _ & _).
  assert (Hnil : submits sys = []).
  { unfold Pending in Hidle. destruct (submits sys); [reflexivity|].
    exfalso. apply Hidle. discriminate. }
  assert (Hl : loading (app sys) = false).
  { rewrite Hnil in Hlen. destruct (loading (app sys)); [discriminate|reflexivity]. }
  split; [apply step_submit; exact Hl|].
  unfold fetches_in_flight, on_submit.
  destruct (handleSubmit_advance (formData (app sys)) (app sys)) as (k & Hadv & _).
  rewrite Hadv, Hnil. cbn. repeat split; reflexivity.
Qed.

Lemma submit_enabled_when_idle_witness :
  step mount UserSubmit (on_submit mount) /\
  length (submits (on_submit mount)) = 1%nat /\
  fetches_in_flight (on_submit mount) = 1%nat /\
  loading (app (on_submit mount)) = true.
Proof.
  apply (submit_enabled_when_idle mount).
  - apply reach_mount.
  - unfold Pending. cbn. intros H. apply H. reflexivity.
Defined.

(** ** The rendered results *)

Lemma map_index_from_plain {A B} (g : A -> nat -> B) (h : A -> B) l : forall n,
  (forall x i, g x i = h x) -> map_index_from g n l = map h l.
Proof.
  induction l as [|x l IH]; intros n Hg; cbn; [reflexivity|].
  rewrite Hg, IH by exact Hg. reflexivity.
Qed.

Lemma map_map_index_from {A B C} (f : B -> C) (g : A -> nat -> B) l : forall n,
  map f (map_index_from g n l) = map_index_from (fun x i => f (g x i)) n l.
Proof.
  induction l as [|x l IH]; intros n; cbn; [reflexivity|].
  rewrite IH. reflexivity.
Qed.

(** X14: the bar chart, the share chart and the detail cards show the
    providers under the same labels in the same order, the share chart's
    values are the bar chart's totals, and there is one cell per share
    record. *)
Theorem views_agree_on_providers s cd :
  comparisonData s = Some cd ->
  map provider (formatChartData s) = map name (formatPieData s) /\
  map provider (formatChartData s) = map card_title (cards (render_results s cd)) /\
  map total (formatChartData s) = map value (formatPieData s) /\
  length (pieCells (render_results s cd)) = length (pieChart (render_results s cd)).
Proof.
  intros Hcd. unfold render_results, formatChartData, formatPieData. rewrite Hcd.
  cbn [cards pieCells pieChart]. unfold map_index, Object_entries.
  rewrite map_index_from_length. rewrite !map_map, map_map_index_from.
  split; [apply map_ext; intros [p d]; reflexivity|].
  split; [|split; [apply map_ext; intros [p d]; reflexivity|reflexivity]].
  symmetry. rewrite (map_index_from_plain _ (fun e => toUpperCase (fst e))).
  - apply map_ext. intros [p d]. reflexivity.
  - intros [p d] i. reflexivity.
Qed.

Lemma views_agree_on_providers_witness :
  map provider (formatChartData (with_result five_providers)) =
    map name (formatPieData (with_result five_providers)) /\
  map provider (formatChartData (with_result five_providers)) =
    map card_title (cards (render_results (with_result five_providers) five_providers)) /\
  map total (formatChartData (with_result five_providers)) =
    map value (formatPieData (with_result five_providers)) /\
  length (pieCells (render_results (with_result five_providers) five_providers)) =
    length (pieChart (render_results (with_result five_providers) five_providers)).
Proof.
  apply (views_agree_on_providers (with_result five_providers) five_providers).
  reflexivity.
Defined.

(** The share record at a position of the result map. *)
Lemma pie_record_at s cd i r :
  comparisonData s = Some cd ->
  NoDup (Object_keys (results cd)) ->
  formatPieData s !! i = Some r ->
  exists p d,
    Object_entries (results cd) !! i = Some (p, d) /\
    r = {| name := toUpperCase p; value := total_cost d; color := COLORS !! i |}.
Proof.
  intros Hcd Hnd Hr. unfold formatPieData in Hr. rewrite Hcd in Hr.
  change (map ?f ?l) with (f <$> l) in Hr. rewrite list_lookup_fmap in Hr.
  apply fmap_Some in Hr as ([p d] & Hi & ->). exists p, d. split; [exact Hi|].
  assert (Hk : Object_keys (results cd) !! i = Some p).
  { unfold Object_keys. change (map ?f ?l) with (f <$> l).
    unfold Object_entries in Hi. rewrite list_lookup_fmap, Hi. reflexivity. }
  cbn. rewrite (indexOf_lookup _ _ _ Hnd Hk), array_get_nat. reflexivity.
Qed.

(** X15: for a result map with distinct keys, the fill of the cell at
    position [i] is the palette color at [i mod 4].  For the first four
    providers it is the color carried by the share record itself; from the
    fifth provider on the record carries no color while its cell wraps
    around the palette. *)
Theorem cell_fill_and_record_color s cd i r :
  comparisonData s = Some cd ->
  NoDup (Object_keys (results cd)) ->
  formatPieData s !! i = Some r ->
  pieCells (render_results s cd) !! i = Some (COLORS !! (i mod 4)%nat) /\
  ((i < 4)%nat -> pieCells (render_results s cd) !! i = Some (color r)) /\
  ((4 <= i)%nat -> color r = None /\ is_Some (COLORS !! (i mod 4)%nat)).
Proof.
  intros Hcd Hnd Hr.
  destruct (pie_record_at s cd i r Hcd Hnd Hr) as (p & d & _ & ->). cbn [color].
  assert (Hcell : pieCells (render_results s cd) !! i = Some (COLORS !! (i mod 4)%nat)).
  { cbn [render_results pieCells]. unfold map_index.
    rewrite map_index_from_lookup, Hr. reflexivity. }
  split; [exact Hcell|]. split.
  - intros Hlt. rewrite Hcell, Nat.mod_small by exact Hlt. reflexivity.
  - intros Hge. split.
    + apply lookup_ge_None. cbn. exact Hge.
    + apply lookup_lt_is_Some. change (length COLORS) with 4%nat.
      apply Nat.mod_upper_bound. discriminate.
Qed.

Lemma cell_fill_and_record_color_witness :
  let s := with_result five_providers in
  let r := {| name := "IBM"; value := 42 # 1; color := None |} in
  pieCells (render_results s five_providers) !! 4%nat = Some (COLORS !! (4 mod 4)%nat) /\
  ((4 < 4)%nat -> pieCells (render_results s five_providers) !! 4%nat = Some (color r)) /\
  ((4 <= 4)%nat -> color r = None /\ is_Some (COLORS !! (4 mod 4)%nat)).
Proof.
  apply (cell_fill_and_record_color (with_result five_providers) five_providers 4
           {| name := "IBM"; value := 42 # 1; color := None |}).
  - reflexivity.
  - apply (bool_decide_unpack _). reflexivity.
  - reflexivity.
Defined.

Lemma winner_cards_count (x : string) (l : list (string * ProviderCost)) : forall n,
  NoDup (map fst l) ->
  let cs := map_index_from
              (fun '(provider, data) (_ : nat) =>
                 {| card_key := provider;
                    card_title := toUpperCase provider;
                    card_data := data;
                    isWinner := String.eqb provider x |}) n l in
  length (filter (fun c => isWinner c = true) cs) =
    (if bool_decide (x ∈ map fst l) then 1 else 0)%nat /\
  forall c, c ∈ filter (fun c => isWinner c = true) cs -> card_key c = x.
Proof.
  induction l as [|[p d] l IH]; intros n Hnd cs; subst cs.
  - split; [reflexivity|]. intros c Hc. inversion Hc.
  - cbn [map] in Hnd. apply NoDup_cons in Hnd as [Hp Hnd].
    destruct (IH (S n) Hnd) as [IHlen IHkey]. cbn [map_index_from map fst].
    destruct (String.eqb p x) eqn:E.
    + apply String.eqb_eq in E. subst x.
      rewrite filter_cons_True by reflexivity.
      rewrite bool_decide_eq_true_2 by apply list_elem_of_here.
      rewrite (bool_decide_eq_false_2 _ Hp) in IHlen.
      split; [cbn [length]; rewrite IHlen; reflexivity|].
      intros c Hc. apply elem_of_cons in Hc as [->|Hc]; [reflexivity|].
      apply IHkey. exact Hc.
    + rewrite filter_cons_False by (cbn; discriminate).
      apply String.eqb_neq in E.
      split; [|exact IHkey]. rewrite IHlen.
      destruct (bool_decide (x ∈ map fst l)) eqn:Hin.
      * apply bool_decide_eq_true_1 in Hin.
        rewrite bool_decide_eq_true_2; [reflexivity|].
        apply list_elem_of_further. exact Hin.
      * apply bool_decide_eq_false_1 in Hin.
        rewrite bool_decide_eq_false_2; [reflexivity|].
        intros H. apply elem_of_cons in H as [H|H]; [congruence|contradiction].
Qed.

(** X16: for a result map with distinct keys, exactly one card is marked
    as winner when the summary's cheapest provider is a key of the map, and
    none when it is not; a marked card is always the one of that
    provider. *)
Theorem at_most_one_winner_card s cd :
  NoDup (Object_keys (results cd)) ->
  length (winners (render_results s cd)) =
    (if bool_decide (cheapest_provider (comparison cd) ∈ Object_keys (results cd))
     then 1 else 0)%nat /\
  forall c, c ∈ winners (render_results s cd) ->
    card_key c = cheapest_provider (comparison cd).
Proof.
  intros Hnd.
  exact (winner_cards_count (cheapest_provider (comparison cd)) (results cd) 0 Hnd).
Qed.

Lemma at_most_one_winner_card_witness :
  length (winners (render_results (with_result tied_payload) tied_payload)) =
    (if bool_decide (cheapest_provider (comparison tied_payload)
                       ∈ Object_keys (results tied_payload))
     then 1 else 0)%nat /\
  forall c, c ∈ winners (render_results (with_result tied_payload) tied_payload) ->
    card_key c = cheapest_provider (comparison tied_payload).
Proof.
  apply (at_most_one_winner_card (with_result tied_payload) tied_payload).
  apply (bool_decide_unpack _). reflexivity.
Defined.

(** ** The option groups of a selector *)

Lemma toUpperCase_app a b :
  toUpperCase (a ++ b) = (toUpperCase a ++ toUpperCase b)%string.
Proof. induction a as [|c a IH]; simpl; [reflexivity|rewrite IH; reflexivity]. Qed.

Lemma replace_underscore_none s :
  ~ In "_"%char (list_ascii_of_string s) -> replace_underscore s = s.
Proof.
  induction s as [|c s IH]; cbn; intros H; [reflexivity|].
  destruct (Ascii.eqb c "_") eqn:E.
  - apply Ascii.eqb_eq in E. subst c. exfalso. apply H. left. reflexivity.
  - rewrite IH; [reflexivity|]. intros Hin. apply H. right. exact Hin.
Qed.

(** Only the first underscore is replaced. *)
Lemma replace_underscore_first a b :
  ~ In "_"%char (list_ascii_of_string a) ->
  replace_underscore (a ++ String "_" b) = (a ++ String " " b)%string.
Proof.
  induction a as [|c a IH]; simpl; intros H; [reflexivity|].
  destruct (Ascii.eqb c "_") eqn:E.
  - apply Ascii.eqb_eq in E. subst c. exfalso. apply H. left. reflexivity.
  - rewrite IH; [reflexivity|]. intros Hin. apply H. right. exact Hin.
Qed.

(** X17: a provider with a catalog gets one option group per instance
    family, in the catalog's order and with the family's instances
    unchanged.  The label of a group is the family name in upper case with
    its first underscore, and only the first, turned into a space; a name
    without underscore is just put in upper case. *)
Theorem option_groups_follow_catalog s p c :
  instanceTypes s !! p = Some c ->
  exists groups,
    renderInstanceOptions s p = Some groups /\
    length groups = length (Object_entries (instance_families c)) /\
    map snd groups = map snd (Object_entries (instance_families c)) /\
    (forall i a b insts,
       Object_entries (instance_families c) !! i = Some ((a ++ String "_" b)%string, insts) ->
       ~ In "_"%char (list_ascii_of_string a) ->
       groups !! i =
         Some ((toUpperCase a ++ String " " (toUpperCase b))%string, insts)) /\
    (forall i fam insts,
       Object_entries (instance_families c) !! i = Some (fam, insts) ->
       ~ In "_"%char (list_ascii_of_string fam) ->
       groups !! i = Some (toUpperCase fam, insts)).
Proof.
  intros Hc. unfold renderInstanceOptions. rewrite Hc.
  eexists. split; [reflexivity|]. split; [apply length_map|].
  split; [rewrite map_map; apply map_ext; intros [fam insts]; reflexivity|].
  split.
  - intros i a b insts Hi Ha. change (map ?f ?l) with (f <$> l).
    rewrite list_lookup_fmap, Hi. cbn.
    rewrite (replace_underscore_first a b Ha), toUpperCase_app. reflexivity.
  - intros i fam insts Hi Hf. change (map ?f ?l) with (f <$> l).
    rewrite list_lookup_fmap, Hi. cbn.
    rewrite (replace_underscore_none fam Hf). reflexivity.
Qed.

Lemma option_groups_follow_catalog_witness :
  let s := final (run gcp_status_500 fetchInstanceTypes initialState) in
  exists groups,
    renderInstanceOptions s "aws" = Some groups /\
    length groups = length (Object_entries (instance_families (sample_catalog "aws"))) /\
    map snd groups = map snd (Object_entries (instance_families (sample_catalog "aws"))) /\
    (forall i a b insts,
       Object_entries (instance_families (sample_catalog "aws")) !! i =
         Some ((a ++ String "_" b)%string, insts) ->
       ~ In "_"%char (list_ascii_of_string a) ->
       groups !! i =
         Some ((toUpperCase a ++ String " " (toUpperCase b))%string, insts)) /\
    (forall i fam insts,
       Object_entries (instance_families (sample_catalog "aws")) !! i = Some (fam, insts) ->
       ~ In "_"%char (list_ascii_of_string fam) ->
       groups !! i = Some (toUpperCase fam, insts)).
Proof.
  apply (option_groups_follow_catalog
           (final (run gcp_status_500 fetchInstanceTypes initialState))
           "aws" (sample_catalog "aws")).
  reflexivity.
Defined.

Example label_keeps_second_underscore :
  toUpperCase (replace_underscore "memory_optimized_v2") = "MEMORY OPTIMIZED_V2".
Proof. reflexivity. Qed.

(** ** What each event can change *)

Lemma loader_effect_frame eff s :
  loader_effect eff ->
  formData (apply_effect eff s) = formData s /\
  comparisonData (apply_effect eff s) = comparisonData s /\
  loading (apply_effect eff s) = loading s /\
  error (apply_effect eff s) = error s.
Proof. destruct eff; cbn; intros H; try contradiction; repeat split; reflexivity. Qed.

(** X18: in a reachable system every event changes only its own part of
    the state: a form edit only the form; a submit only the loading flag
    and the error; the settling of a catalog retrieval only the catalog;
    the settling of the comparison request neither the form nor the
    catalog. *)
Theorem each_event_has_its_frame sys l sys' :
  reachable sys ->
  step sys l sys' ->
  match l with
  | UserInput _ _ =>
      comparisonData (app sys') = comparisonData (app sys) /\
      loading (app sys') = loading (app sys) /\
      error (app sys') = error (app sys) /\
      instanceTypes (app sys') = instanceTypes (app sys)
  | UserSubmit =>
      formData (app sys') = formData (app sys) /\
      comparisonData (app sys') = comparisonData (app sys) /\
      instanceTypes (app sys') = instanceTypes (app sys)
  | CatalogSettles _ =>
      formData (app sys') = formData (app sys) /\
      comparisonData (app sys') = comparisonData (app sys) /\
      loading (app sys') = loading (app sys) /\
      error (app sys') = error (app sys)
  | CompareSettles _ =>
      formData (app sys') = formData (app sys) /\
      instanceTypes (app sys') = instanceTypes (app sys)
  end.
Proof.
  intros Hreach Hstep.
  destruct (reachable_shape sys Hreach) as (Hsub & Hload & _).
  destruct Hstep as [sys name value|sys Hen|sys before t after o Hs|sys before t after o Hs].
  - unfold on_input, handleInputChange. cbn. repeat split; reflexivity.
  - unfold on_submit.
    destruct (handleSubmit_advance (formData (app sys)) (app sys)) as (k & Hadv & _).
    rewrite Hadv. cbn. repeat split; reflexivity.
  - assert (Hin : t ∈ submits sys).
    { rewrite Hs. apply elem_of_app. right. apply list_elem_of_here. }
    destruct (Hsub t Hin o) as (Hp & _ & _).
    unfold on_compare_settles.
    destruct (advance (settle t o) (app sys)) as [s st] eqn:Hadv. cbn [app].
    eapply (advance_performs submit_effect (fun _ => True)
              (fun x => formData x = formData (app sys) /\
                        instanceTypes x = instanceTypes (app sys)));
      [|exact Hp|split; reflexivity|exact Hadv].
    intros eff x He [Hx1 Hx2].
    destruct (submit_effect_frame eff x He) as [-> ->]. auto.
  - assert (Hin : t ∈ loads sys).
    { rewrite Hs. apply elem_of_app. right. apply list_elem_of_here. }
    unfold on_catalog_settles.
    destruct (advance (settle t o) (app sys)) as [s st] eqn:Hadv. cbn [app].
    eapply (advance_performs loader_effect (fun _ => True)
              (fun x => formData x = formData (app sys) /\
                        comparisonData x = comparisonData (app sys) /\
                        loading x = loading (app sys) /\
                        error x = error (app sys)));
      [|exact (Hload t Hin o)|repeat split; reflexivity|exact Hadv].
    intros eff x He (Hx1 & Hx2 & Hx3 & Hx4).
    destruct (loader_effect_frame eff x He) as (-> & -> & -> & ->). auto.
Qed.

Lemma each_event_has_its_frame_witness :
  formData (app (on_submit mount)) = formData (app mount) /\
  comparisonData (app (on_submit mount)) = comparisonData (app mount) /\
  instanceTypes (app (on_submit mount)) = instanceTypes (app mount).
Proof.
  apply (each_event_has_its_frame mount UserSubmit (on_submit mount)).
  - apply reach_mount.
  - apply step_submit. reflexivity.
Defined.
